(** * Combinations API: the combination generator and its persistence hand-off

    A shallow embedding of [src/combinations/combinations.service.ts] and of
    [src/database/database.service.ts], and the properties of the
    specification proved about it.

    Conventions of the embedding:
    - a JavaScript string is the list of its UTF-16 code units ([str]);
    - a JavaScript number that the code uses as an integer is a [Z];
    - a JavaScript [Map] is an association list in insertion order
      ([JsMap]), because [Array.from(groups.keys())] exposes that order;
    - [async] code that talks to the MySQL driver runs in the monad [M],
      which threads the trace of driver calls and propagates exceptions;
      every call on the pool or the connection can fail, as the driver
      decides, except [release], which only hands the connection back;
    - a query is recorded with the values it binds, a JSON payload as the
      value it serialises. *)

From Stdlib Require Import ZArith NArith Lia String Ascii Decimal.
From Stdlib Require Import DecimalPos DecimalN.
From stdpp Require Import base tactics option numbers list sorting.

Local Open Scope Z_scope.

(** ** JavaScript strings *)

(** A string is its sequence of UTF-16 code units. *)
Abbreviation str := (list N) (only parsing).

(** A source literal, written as a Rocq string. *)
Definition lit (s : string) : str := N_of_ascii <$> list_ascii_of_string s.

(** [String.fromCharCode(c)]: the argument is taken modulo 2^16. *)
Definition String_fromCharCode (c : Z) : str := [Z.to_N (c mod 65536)].

(** The decimal digits of a [Decimal.uint], as code units. *)
Fixpoint uint_digits (d : Decimal.uint) : str :=
  match d with
  | Decimal.Nil => []
  | Decimal.D0 d => 48%N :: uint_digits d
  | Decimal.D1 d => 49%N :: uint_digits d
  | Decimal.D2 d => 50%N :: uint_digits d
  | Decimal.D3 d => 51%N :: uint_digits d
  | Decimal.D4 d => 52%N :: uint_digits d
  | Decimal.D5 d => 53%N :: uint_digits d
  | Decimal.D6 d => 54%N :: uint_digits d
  | Decimal.D7 d => 55%N :: uint_digits d
  | Decimal.D8 d => 56%N :: uint_digits d
  | Decimal.D9 d => 57%N :: uint_digits d
  end.

(** The string a template literal makes of a non-negative integer. *)
Definition Number_toString (i : Z) : str := uint_digits (N.to_uint (Z.to_N i)).

(** [Array.prototype.join]. *)
Fixpoint join (sep : str) (l : list str) : str :=
  match l with
  | [] => []
  | [s] => s
  | s :: l' => s ++ sep ++ join sep l'
  end.

(** ** JavaScript maps *)

(** A [Map<string, V>]: its entries in insertion order. *)
Abbreviation JsMap V := (list (str * V)) (only parsing).

Section JsMap.
Context {V : Type}.

(** [m.set(k, v)]: an existing key keeps its place and takes the new
    value, a new key is appended. *)
Fixpoint map_set (k : str) (v : V) (m : JsMap V) : JsMap V :=
  match m with
  | [] => [(k, v)]
  | (k', v') :: m' =>
      if decide (k = k') then (k', v) :: m' else (k', v') :: map_set k v m'
  end.

(** [m.get(k)], [None] standing for [undefined]. *)
Fixpoint map_get (k : str) (m : JsMap V) : option V :=
  match m with
  | [] => None
  | (k', v') :: m' => if decide (k = k') then Some v' else map_get k m'
  end.

(** [Array.from(m.keys())]. *)
Definition map_keys (m : JsMap V) : list str := m.*1.

(** [m.size]. *)
Definition map_size (m : JsMap V) : Z := Z.of_nat (length m).

(** The invariant of every [Map]: no key occurs twice. *)
Definition map_wf (m : JsMap V) : Prop := NoDup (map_keys m).
End JsMap.

(** ** The combinations service *)

(** [type Combo = string[]]. *)
Abbreviation Combo := (list str) (only parsing).

(** One turn of the [for (const count of items)] loop of [expandItems]: the
    state is the map built so far and the running [codePoint]. *)
Definition expandItems_step (st : JsMap (list str) * Z) (count : Z)
  : JsMap (list str) * Z :=
  let '(groups, codePoint) := st in
  let prefix := String_fromCharCode codePoint in
  let arr := (λ i, prefix ++ Number_toString i) <$> seqZ 1 count in
  (map_set prefix arr groups, codePoint + 1).

Definition expandItems (items : list Z) : JsMap (list str) :=
  (foldl expandItems_step ([], 65) items).1.

(** [backtrack(startIndex, currentPath)] of [choose]; [suffix] is
    [items.slice(startIndex)], and the value is the list of paths the call
    pushes on [result], in order. *)
Fixpoint backtrack (combinationLength : Z) (suffix : list str)
    (currentPath : list str) {struct suffix} : list (list str) :=
  if decide (Z.of_nat (length currentPath) = combinationLength)
  then [currentPath]
  else
    (fix loop (rest : list str) : list (list str) :=
       match rest with
       | [] => []
       | item :: rest' =>
           backtrack combinationLength rest' (currentPath ++ [item])
             ++ loop rest'
       end) suffix.

Definition choose (items : list str) (combinationLength : Z)
  : list (list str) :=
  backtrack combinationLength items [].

(** The callback [cartesian] hands to [reduce]. *)
Definition cartesian_step (accumulator : list (list str))
    (currentGroup : list str) : list (list str) :=
  accumulator ≫= λ previousCombination,
    (λ item, previousCombination ++ [item]) <$> currentGroup.

(** [cartesian]: [reduce] is a left fold, here from [[[]]]. *)
Definition cartesian (itemGroups : list (list str)) : list (list str) :=
  foldl cartesian_step [[]] itemGroups.

(** [groups.get(p)!]: the assertion is sound where the code uses it, on the
    keys of [groups] itself (lemma [map_get_keys]). *)
Definition get_bang (groups : JsMap (list str)) (p : str) : list str :=
  default [] (map_get p groups).

Definition generateValidCombinations (groups : JsMap (list str)) (length : Z)
  : list Combo :=
  let prefixes := map_keys groups in
  let chosenPrefixCombos := choose prefixes length in
  chosenPrefixCombos ≫= λ prefixSet,
    let arrays := get_bang groups <$> prefixSet in
    cartesian arrays.

(** ** The database service *)

(** What the service can throw: its own business error, or whatever the
    MySQL driver raised (identified by a code). *)
Inductive Exception : Type :=
  | BadRequestException (message : string)
  | DriverError (code : Z).

(** A call on the pool or on the connection. A query is recorded with the
    rows it binds. *)
Inductive Call : Type :=
  | getConnection
  | beginTransaction
  | commit
  | rollback
  | release
  | query_insert_response (req : list Z) (len : Z)
  | query_insert_items (values : list (str * str * option Z))
  | query_insert_combinations (values : list (Z * str * Combo)).

(** The driver and the server behind it: whether the call that ends a trace
    fails, and the [insertId] it answers with. *)
Record Driver : Type := {
  failure : list Call → option Z;
  insertId : list Call → Z;
}.

Inductive Outcome (A : Type) : Type :=
  | Returned (a : A)
  | Thrown (e : Exception).
Arguments Returned {A} a.
Arguments Thrown {A} e.

(** An [async] computation: from the trace so far to an outcome and the
    trace extended with the calls it made. *)
Definition M (A : Type) : Type := list Call → Outcome A * list Call.

Definition ret {A} (a : A) : M A := λ tr, (Returned a, tr).
Definition throw {A} (e : Exception) : M A := λ tr, (Thrown e, tr).
Definition bind {A B} (m : M A) (k : A → M B) : M B :=
  λ tr, match m tr with
        | (Returned a, tr') => k a tr'
        | (Thrown e, tr') => (Thrown e, tr')
        end.

Notation "'let_await' x ':=' m 'in' k" := (bind m (λ x, k))
  (at level 10, x name, m at level 99, k at level 200, only parsing).
Notation "'await' m ';;' k" := (bind m (λ _, k))
  (at level 10, m at level 99, k at level 200, only parsing).

(** [try { body } catch (err) { handler }]. *)
Definition try_catch {A} (body : M A) (handler : Exception → M A) : M A :=
  λ tr, match body tr with
        | (Returned a, tr') => (Returned a, tr')
        | (Thrown e, tr') => handler e tr'
        end.

(** [try { body } finally { cleanup }]: the cleanup runs on every exit of
    the body; if it throws, its exception replaces the body's outcome. *)
Definition try_finally {A} (body : M A) (cleanup : M unit) : M A :=
  λ tr, let '(o, tr') := body tr in
        match cleanup tr' with
        | (Returned _, tr'') => (o, tr'')
        | (Thrown e, tr'') => (Thrown e, tr'')
        end.

(** [parseInt(s, 10)], [None] standing for [NaN]. *)
Definition is_white_space (c : N) : bool :=
  bool_decide (c ∈ [9; 10; 11; 12; 13; 32; 160; 5760; 8192; 8193; 8194; 8195;
                    8196; 8197; 8198; 8199; 8200; 8201; 8202; 8232; 8233;
                    8239; 8287; 12288; 65279]%N).

Fixpoint trim_start (s : str) : str :=
  match s with
  | c :: s' => if is_white_space c then trim_start s' else s
  | [] => []
  end.

Definition is_digit (c : N) : bool := bool_decide (48 ≤ c ≤ 57)%N.

Fixpoint leading_digits (s : str) : list N :=
  match s with
  | c :: s' => if is_digit c then c :: leading_digits s' else []
  | [] => []
  end.

Definition digits_value (ds : list N) : Z :=
  foldl (λ acc c, 10 * acc + (Z.of_N c - 48)) 0 ds.

Definition parseInt10 (s : str) : option Z :=
  let s := trim_start s in
  let '(sign, s) :=
    match s with
    | 45%N :: s' => (-1, s')
    | 43%N :: s' => (1, s')
    | _ => (1, s)
    end in
  match leading_digits s with
  | [] => None
  | ds => Some (sign * digits_value ds)
  end.

(** JavaScript's order on strings: code unit by code unit, a proper prefix
    first. *)
Fixpoint str_leb (a b : str) : bool :=
  match a, b with
  | [], _ => true
  | _ :: _, [] => false
  | x :: a', y :: b' =>
      if (x <? y)%N then true
      else if (x =? y)%N then str_leb a' b'
      else false
  end.

Definition str_le (a b : str) : Prop := str_leb a b = true.

Global Instance str_le_dec : RelDecision str_le.
Proof. intros a b. unfold str_le. apply _. Defined.

(** [[...c].sort()] with the default comparison: the array in ascending
    order of [str_le]. *)
Definition Array_sort (c : list str) : list str := merge_sort str_le c.

(** The [combination_key] column: [[...c].sort().join('|')]. *)
Definition combination_key (c : Combo) : str := join (lit "|") (Array_sort c).

Definition CHUNK : nat := 1000.

Record GenerateInput : Type := {
  input_items : option (list Z);  (* [None]: a value that is not an array *)
  input_length : Z;
}.

(** The object [generateAndStore] resolves to: [{ id, combination }], with
    [None] for [null]. *)
Record GenerateResult : Type := {
  result_id : option Z;
  result_combination : list Combo;
}.

Section Service.
Context (drv : Driver).

(** A call that can fail: it is recorded, then the driver decides. *)
Definition perform (c : Call) : M Z :=
  λ tr, let tr' := tr ++ [c] in
        match failure drv tr' with
        | Some code => (Thrown (DriverError code), tr')
        | None => (Returned (insertId drv tr'), tr')
        end.

(** [conn.release()] hands the connection back to the pool. *)
Definition conn_release : M unit := λ tr, (Returned (), tr ++ [release]).

Definition withTransaction (transactionFunction : M Z) : M Z :=
  await perform getConnection ;;
  try_finally
    (try_catch
       (await perform beginTransaction ;;
        let_await result := transactionFunction in
        await perform commit ;;
        ret result)
       (λ err, await perform rollback ;; throw err))
    conn_release.

Definition insertResponse (items : list Z) (len : Z) : M Z :=
  perform (query_insert_response items len).

Definition insertItems (groups : JsMap (list str)) : M unit :=
  let values :=
    groups ≫= λ '(prefix, codes),
      (λ code, (code, prefix, parseInt10 (drop 1 code))) <$> codes in
  if decide (length values = 0%nat) then ret ()
  else await perform (query_insert_items values) ;; ret ().

(** The [for (let i = 0; i < combos.length; i += CHUNK)] loop; [fuel]
    bounds the number of turns ([insertCombinations] gives it
    [combos.length], which the loop never uses up). *)
Fixpoint insertCombinations_loop (fuel : nat) (responseId : Z)
    (combos : list Combo) (i : nat) : M unit :=
  match fuel with
  | O => ret ()
  | S fuel' =>
      if decide (i < length combos)%nat then
        let slice := take CHUNK (drop i combos) in
        let values := (λ c, (responseId, combination_key c, c)) <$> slice in
        await perform (query_insert_combinations values) ;;
        insertCombinations_loop fuel' responseId combos (i + CHUNK)
      else ret ()
  end.

Definition insertCombinations (responseId : Z) (combos : list Combo)
  : M unit :=
  if decide (length combos = 0%nat) then ret ()
  else insertCombinations_loop (length combos) responseId combos 0.

Definition generateAndStore (input : GenerateInput) : M GenerateResult :=
  let items := input_items input in
  let length := input_length input in
  if decide (length < 1) then
    throw (BadRequestException "length must be >= 1")
  else
    match items with
    | None | Some [] =>
        throw (BadRequestException "items must be a non-empty array")
    | Some items =>
        let groups := expandItems items in
        if decide (length > map_size groups) then
          ret {| result_id := None; result_combination := [] |}
        else
          let allCombos := generateValidCombinations groups length in
          let_await result :=
            withTransaction
              (let_await responseId := insertResponse items length in
               await insertItems groups ;;
               await insertCombinations responseId allCombos ;;
               ret responseId) in
          ret {| result_id := Some result; result_combination := allCombos |}
    end.
End Service.

(** A driver that never fails and numbers the responses from 1. *)
Definition is_insert_response (c : Call) : bool :=
  match c with query_insert_response _ _ => true | _ => false end.

Definition healthy : Driver :=
  {| failure := λ _, None;
     insertId := λ tr, Z.of_nat (length (filter is_insert_response tr)) |}.

(** A driver whose [rollback] fails with code 2, and one whose [commit]
    fails with code 3; every other call goes through. *)
Definition rollback_failing : Driver :=
  {| failure := λ tr,
       match last tr with Some rollback => Some 2 | _ => None end;
     insertId := λ _, 0 |}.

Definition commit_failing : Driver :=
  {| failure := λ tr,
       match last tr with Some commit => Some 3 | _ => None end;
     insertId := λ _, 0 |}.

(** ** Notions the specification uses *)

(** Strings joined by a separator, said without recursion on the rest: the
    first string, then every other string with the separator in front. *)
Definition joined_with (sep : str) (l : list str) : str :=
  match l with
  | [] => []
  | s :: l' => s ++ concat ((sep ++.) <$> l')
  end.

(** The product of the numbers of a list. *)
Definition product_of (ns : list nat) : nat := foldr Nat.mul 1%nat ns.

(** The sum of the numbers of a list. *)
Definition sum_of (ns : list nat) : nat := foldr Nat.add 0%nat ns.

(** How many times [x] occurs in [l]. *)
Definition occurrences {A} `{EqDecision A} (x : A) (l : list A) : nat :=
  length (filter (x =.) l).

(** The tuples that take one element from each sequence, the first sequence
    varying slowest. *)
Fixpoint tuples (itemGroups : list (list str)) : list (list str) :=
  match itemGroups with
  | [] => [[]]
  | g :: gs => g ≫= λ x, (x ::.) <$> tuples gs
  end.

(** The subsequences of [l] that have [n] elements, each in the order of
    [l]: those that start with the head of [l] first. *)
Fixpoint subsequences_of_length (n : nat) (l : list str) : list (list str) :=
  match n, l with
  | O, _ => [[]]
  | S n', [] => []
  | S n', x :: l' =>
      ((x ::.) <$> subsequences_of_length n' l') ++ subsequences_of_length n l'
  end.

(** The binomial coefficient C(n, k), by Pascal's rule. *)
Fixpoint binomial (n k : nat) : nat :=
  match n, k with
  | _, O => 1%nat
  | O, S _ => 0%nat
  | S n', S k' => (binomial n' k' + binomial n' k)%nat
  end.

(** The groups with at least one item, in the order of the map. *)
Definition nonempty_groups (groups : JsMap (list str)) : JsMap (list str) :=
  filter (λ entry, entry.2 ≠ []) groups.

(** The 26 letters of the Latin alphabet, each as a one-letter label. *)
Definition latin_alphabet : list str :=
  (λ c, [c]) <$> lit "ABCDEFGHIJKLMNOPQRSTUVWXYZ".

(** The sum of the integers of a list. *)
Definition sum_Z (ns : list Z) : Z := foldr Z.add 0 ns.

(** The item labels of all the groups of a map, flattened. *)
Definition all_items (groups : JsMap (list str)) : list str :=
  concat groups.*2.

(** The three parts of the labeler's contract, for one input. *)
Definition labels_are_letters (items : list Z) : Prop :=
  ∀ i, (i < length items)%nat →
    is_Some (latin_alphabet !! i)
    ∧ map_keys (expandItems items) !! i = latin_alphabet !! i.

Definition groups_are_populated (items : list Z) : Prop :=
  ∀ i count label,
    items !! i = Some count →
    map_keys (expandItems items) !! i = Some label →
    0 < count →
    ∃ members,
      map_get label (expandItems items) = Some members
      ∧ Z.of_nat (length members) = count
      ∧ ∀ j, 1 ≤ j ≤ count →
          members !! Z.to_nat (j - 1) = Some (label ++ Number_toString j).

Definition total_is_sum (items : list Z) : Prop :=
  Z.of_nat (length (all_items (expandItems items))) = sum_Z items.

(** The entry a turn of the loop of [expandItems] makes at code point [c]. *)
Definition group_at (c count : Z) : str * list str :=
  (String_fromCharCode c,
   (λ i, String_fromCharCode c ++ Number_toString i) <$> seqZ 1 count).

(** A label that is a single code unit below 2^16. *)
Definition code_unit_label (k : str) : Prop :=
  ∃ n : nat, (n < Z.to_nat 65536)%nat ∧ k = [N.of_nat n].

(** A computation is orderly when it only adds calls to the trace and only
    throws what the driver raised. *)
Definition orderly {A} (m : M A) : Prop :=
  ∀ tr o tr', m tr = (o, tr') →
    (∃ calls, tr' = tr ++ calls)
    ∧ ∀ e, o = Thrown e → ∃ code, e = DriverError code.

(** The rows the [INSERT INTO combinations] queries of a trace bind, in
    order. *)
Definition combination_rows (tr : list Call) : list (Z * str * Combo) :=
  tr ≫= λ c,
    match c with query_insert_combinations values => values | _ => [] end.

(** The rows [insertItems] binds for a map: one per item, with the key of
    its group and the index [parseInt] reads behind the first code unit. *)
Definition item_rows (groups : JsMap (list str))
  : list (str * str * option Z) :=
  groups ≫= λ '(prefix, codes),
    (λ code, (code, prefix, parseInt10 (drop 1 code))) <$> codes.

(** An entry as [expandItems] makes them: a one-unit label and the items
    label1 .. labelcount. *)
Definition group_entry (entry : str * list str) : Prop :=
  ∃ c count, entry = group_at c count.

(** How many chunks of at most [CHUNK] cover [n] combinations. *)
Definition chunk_count (n : nat) : nat := ((n + CHUNK - 1) / CHUNK)%nat.

(** The queries that bind the combinations chunk by chunk. *)
Definition chunk_queries (responseId : Z) (combos : list Combo) : list Call :=
  (λ j : nat,
     query_insert_combinations
       ((λ c, (responseId, combination_key c, c))
          <$> take CHUNK (drop (j * CHUNK) combos)))
    <$> seq 0 (chunk_count (length combos)).

(** Awaiting calls one after the other: the first that fails ends the run. *)
Fixpoint perform_all (drv : Driver) (calls : list Call) : M unit :=
  match calls with
  | [] => ret ()
  | c :: calls' => await perform drv c ;; perform_all drv calls'
  end.

(** The calls that are queries. *)
Definition is_query (c : Call) : bool :=
  match c with
  | query_insert_response _ _ | query_insert_items _
  | query_insert_combinations _ => true
  | _ => false
  end.

(** A computation that only adds queries to the trace. *)
Definition queries_only {A} (m : M A) : Prop :=
  ∀ tr o tr', m tr = (o, tr') →
    ∃ qs, tr' = tr ++ qs ∧ Forall (λ c, is_query c = true) qs.

(** A label or item that holds no "|", the separator of the keys. *)
Definition bar_free (s : str) : Prop := 124%N ∉ s.

(** * Properties *)

Example expandItems_121 :
  expandItems [1; 2; 1] =
  [(lit "A", [lit "A1"]); (lit "B", [lit "B1"; lit "B2"]); (lit "C", [lit "C1"])].
Proof. reflexivity. Qed.

Example choose_3_2 :
  choose [lit "A"; lit "B"; lit "C"] 2 =
  [[lit "A"; lit "B"]; [lit "A"; lit "C"]; [lit "B"; lit "C"]].
Proof. reflexivity. Qed.

Example cartesian_ex :
  cartesian [[lit "A1"]; [lit "B1"; lit "B2"]] =
  [[lit "A1"; lit "B1"]; [lit "A1"; lit "B2"]].
Proof. reflexivity. Qed.

Example scenario_1 :
  generateValidCombinations (expandItems [1; 2; 1]) 2 =
  [[lit "A1"; lit "B1"]; [lit "A1"; lit "B2"]; [lit "A1"; lit "C1"];
   [lit "B1"; lit "C1"]; [lit "B2"; lit "C1"]].
Proof. reflexivity. Qed.

Example scenario_3 :
  generateAndStore healthy
    {| input_items := Some [1; 1]; input_length := 3 |} [] =
  (Returned {| result_id := None; result_combination := [] |}, []).
Proof. reflexivity. Qed.

Example scenario_2 :
  generateAndStore healthy
    {| input_items := Some [2; 1]; input_length := 1 |} [] =
  (Returned {| result_id := Some 1;
               result_combination := [[lit "A1"]; [lit "A2"]; [lit "B1"]] |},
   [getConnection; beginTransaction;
    query_insert_response [2; 1] 1;
    query_insert_items
      [(lit "A1", lit "A", Some 1); (lit "A2", lit "A", Some 2);
       (lit "B1", lit "B", Some 1)];
    query_insert_combinations
      [(1, lit "A1", [lit "A1"]); (1, lit "A2", [lit "A2"]);
       (1, lit "B1", [lit "B1"])];
    commit; release]).
Proof. reflexivity. Qed.

Example combination_key_ex :
  combination_key [lit "B1"; lit "A1"] = lit "A1|B1".
Proof. reflexivity. Qed.

Example scenario_4 :
  length (generateValidCombinations (expandItems [3; 2; 1]) 2) = 11%nat.
Proof. reflexivity. Qed.

Example scenario_5 :
  generateValidCombinations (expandItems [3]) 1
  = [[lit "A1"]; [lit "A2"]; [lit "A3"]].
Proof. reflexivity. Qed.

Example Number_toString_ex : Number_toString 120 = lit "120".
Proof. reflexivity. Qed.

Example String_fromCharCode_wraps :
  String_fromCharCode (65 + 65536) = lit "A".
Proof. reflexivity. Qed.

Example parseInt10_ex :
  parseInt10 (lit "12") = Some 12 ∧ parseInt10 (lit "x") = None.
Proof. split; reflexivity. Qed.

Example choose_all_or_more :
  choose [lit "A"; lit "B"] 2 = [[lit "A"; lit "B"]]
  ∧ choose [lit "A"; lit "B"] 3 = [].
Proof. split; reflexivity. Qed.

(** A rollback that fails replaces the exception of the function. *)
Example withTransaction_rollback_fails :
  withTransaction
    {| failure := λ tr,
         match last tr with Some rollback => Some 2 | _ => None end;
       insertId := λ _, 0 |}
    (throw (DriverError 1)) []
  = (Thrown (DriverError 2),
     [getConnection; beginTransaction; rollback; release]).
Proof. reflexivity. Qed.

(** ** The item expander *)

Section Cartesian.
Implicit Types (g : list str) (gs : list (list str)) (t p : list str).

Lemma step_one p g gs :
  ((λ item, p ++ [item]) <$> g) ≫= (λ q, (q ++.) <$> tuples gs)
  = (p ++.) <$> (g ≫= λ x, (x ::.) <$> tuples gs).
Proof.
  induction g as [|x g IH]; [done|].
  rewrite fmap_cons, !bind_cons, fmap_app, IH. f_equal.
  rewrite <-list_fmap_compose. apply list_fmap_ext.
  intros _ r _. simpl. by rewrite <-app_assoc.
Qed.

Lemma foldl_step_tuples gs : ∀ acc,
  foldl cartesian_step acc gs = acc ≫= λ p, (p ++.) <$> tuples gs.
Proof.
  induction gs as [|g gs IH]; intros acc; simpl.
  - induction acc as [|p acc IHacc]; [done|].
    rewrite bind_cons. simpl. rewrite app_nil_r. by f_equal.
  - rewrite IH. unfold cartesian_step.
    induction acc as [|p acc IHacc]; [done|].
    rewrite !bind_cons, bind_app, IHacc. f_equal. apply step_one.
Qed.

Lemma cartesian_tuples gs : cartesian gs = tuples gs.
Proof.
  unfold cartesian. rewrite foldl_step_tuples.
  rewrite bind_singleton. simpl. apply list_fmap_id.
Qed.

Lemma cartesian_cons g gs :
  cartesian (g :: gs) = g ≫= λ x, (x ::.) <$> cartesian gs.
Proof. by rewrite !cartesian_tuples. Qed.

Lemma cartesian_length gs :
  length (cartesian gs) = product_of (length <$> gs).
Proof.
  induction gs as [|g gs IH]; [done|].
  rewrite cartesian_cons, fmap_cons.
  change (product_of (length g :: (length <$> gs)))
    with (length g * product_of (length <$> gs))%nat.
  rewrite <-IH. clear IH.
  induction g as [|x g IHg]; [done|].
  rewrite bind_cons, length_app, length_fmap, IHg. simpl. lia.
Qed.

Lemma elem_of_cartesian gs : ∀ t, t ∈ cartesian gs ↔ Forall2 (∈) t gs.
Proof.
  induction gs as [|g gs IH]; intros t.
  - change (cartesian []) with [[] : list str].
    rewrite list_elem_of_singleton. split; [by intros ->|].
    by inversion 1.
  - rewrite cartesian_cons, list_elem_of_bind. split.
    + intros (x & Ht & Hx). apply list_elem_of_fmap in Ht as (r & -> & Hr).
      constructor; [done|]. by apply IH.
    + inversion 1 as [|x ? r ? Hx Hr]; subst. exists x. split; [|done].
      apply list_elem_of_fmap. exists r. split; [done|]. by apply IH.
Qed.

Lemma occurrences_app {A} `{EqDecision A} (x : A) l1 l2 :
  occurrences x (l1 ++ l2) = (occurrences x l1 + occurrences x l2)%nat.
Proof. unfold occurrences. by rewrite filter_app, length_app. Qed.

Lemma occurrences_cons {A} `{EqDecision A} (x a : A) l :
  occurrences x (a :: l)
  = ((if decide (x = a) then 1 else 0) + occurrences x l)%nat.
Proof.
  unfold occurrences. rewrite filter_cons. by destruct (decide (x = a)).
Qed.

Lemma occurrences_fmap_cons x y t (l : list (list str)) :
  occurrences (y :: t) ((x ::.) <$> l)
  = if decide (y = x) then occurrences t l else 0%nat.
Proof.
  unfold occurrences. destruct (decide (y = x)) as [->|Hne].
  - induction l as [|r l IH]; [done|].
    rewrite fmap_cons, !filter_cons.
    destruct (decide (t = r)) as [->|Hr].
    + rewrite decide_True by done. simpl. by rewrite IH.
    + by rewrite decide_False by congruence.
  - induction l as [|r l IH]; [done|].
    rewrite fmap_cons, filter_cons, decide_False by congruence. done.
Qed.

Lemma occurrences_cartesian gs : ∀ t,
  length t = length gs →
  occurrences t (cartesian gs)
  = product_of (zip_with occurrences t gs).
Proof.
  induction gs as [|g gs IH]; intros [|y t] Hlen; try done.
  rewrite cartesian_cons.
  change (product_of (zip_with occurrences (y :: t) (g :: gs)))
    with (occurrences y g * product_of (zip_with occurrences t gs))%nat.
  rewrite <-IH by (simpl in Hlen; lia).
  clear IH Hlen. generalize (cartesian gs) as l. intros l.
  induction g as [|x g IHg]; [done|].
  rewrite bind_cons, occurrences_app, occurrences_fmap_cons, IHg.
  rewrite (occurrences_cons y x g).
  destruct (decide (y = x)); simpl; lia.
Qed.

Lemma occurrences_0 {A} `{EqDecision A} (x : A) l :
  x ∉ l → occurrences x l = 0%nat.
Proof.
  unfold occurrences. induction l as [|a l IH]; [done|].
  rewrite not_elem_of_cons, filter_cons. intros [Hne Hl].
  rewrite decide_False by done. auto.
Qed.

Lemma occurrences_pos {A} `{EqDecision A} (x : A) l :
  x ∈ l → (1 ≤ occurrences x l)%nat.
Proof.
  unfold occurrences. induction 1 as [x l|x a l _ IH]; rewrite filter_cons.
  - rewrite decide_True by done. simpl. lia.
  - destruct (decide (x = a)); simpl; lia.
Qed.

Lemma occurrences_NoDup {A} `{EqDecision A} (l : list A) :
  NoDup l ↔ ∀ x, (occurrences x l ≤ 1)%nat.
Proof.
  induction l as [|a l IH].
  - split; [intros _ x; unfold occurrences; simpl; lia | constructor].
  - rewrite NoDup_cons, IH. split.
    + intros [Ha Hl] x. specialize (Hl x). unfold occurrences in *.
      rewrite filter_cons. destruct (decide (x = a)) as [->|]; [|done].
      simpl. apply occurrences_0 in Ha. unfold occurrences in Ha. lia.
    + intros Hocc. split.
      * intros Ha. apply occurrences_pos in Ha. specialize (Hocc a).
        unfold occurrences in *. rewrite filter_cons, decide_True in Hocc by done.
        simpl in Hocc. lia.
      * intros x. specialize (Hocc x). unfold occurrences in *.
        rewrite filter_cons in Hocc. destruct (decide (x = a)); simpl in Hocc; lia.
Qed.

Lemma product_of_le_1 ns : Forall (λ n, n ≤ 1)%nat ns → (product_of ns ≤ 1)%nat.
Proof. induction 1 as [|n ns Hn _ IH]; simpl; [lia|nia]. Qed.

Lemma cartesian_NoDup gs : Forall NoDup gs → NoDup (cartesian gs).
Proof.
  intros Hgs. apply occurrences_NoDup. intros t.
  destruct (decide (length t = length gs)) as [Hlen|Hlen].
  - rewrite occurrences_cartesian by done. apply product_of_le_1.
    revert t Hlen. induction Hgs as [|g gs Hg _ IH]; intros [|y t] Hlen;
      try done; simpl.
    constructor; [by apply occurrences_NoDup|]. apply IH. simpl in Hlen. lia.
  - rewrite occurrences_0; [lia|]. rewrite elem_of_cartesian.
    intros Ht. by apply Forall2_length in Ht.
Qed.
End Cartesian.

(** C4: for item sequences of sizes s_1..s_m, [cartesian] returns the product
    of the s_i tuples; its tuples are exactly the sequences of length m whose
    i-th element is drawn from the i-th input sequence; a tuple occurs as many
    times as there are ways to choose it (the product of the numbers of times
    its i-th element occurs in the i-th sequence), so once when the input
    sequences have no repeated item; and on the empty input it returns the
    single empty tuple. *)
Theorem cartesian_correct (itemGroups : list (list str)) :
  length (cartesian itemGroups) = product_of (length <$> itemGroups)
  ∧ (∀ t, t ∈ cartesian itemGroups ↔
          length t = length itemGroups ∧ Forall2 (λ x g, x ∈ g) t itemGroups)
  ∧ (∀ t, length t = length itemGroups →
          occurrences t (cartesian itemGroups)
          = product_of (zip_with occurrences t itemGroups))
  ∧ (Forall NoDup itemGroups → NoDup (cartesian itemGroups))
  ∧ cartesian [] = [[]].
Proof.
  split; [apply cartesian_length|].
  split.
  { intros t. rewrite elem_of_cartesian. split; [|tauto].
    intros Ht. split; [|done]. by eapply Forall2_length. }
  split; [apply occurrences_cartesian|].
  split; [apply cartesian_NoDup|done].
Qed.

(** ** The group chooser *)

Section Choose.
Implicit Types (l suffix path s : list str) (k : Z) (n : nat).

Lemma backtrack_nil k path :
  backtrack k [] path
  = if decide (Z.of_nat (length path) = k) then [path] else [].
Proof. reflexivity. Qed.

Lemma backtrack_cons k x suffix path :
  backtrack k (x :: suffix) path
  = if decide (Z.of_nat (length path) = k) then [path]
    else backtrack k suffix (path ++ [x]) ++ backtrack k suffix path.
Proof.
  simpl. destruct (decide (Z.of_nat (length path) = k)) as [|Hne]; [done|].
  f_equal. destruct suffix; simpl; by rewrite decide_False.
Qed.

(** A path longer than the requested length is never pushed. *)
Lemma backtrack_overlong k suffix : ∀ path,
  k < Z.of_nat (length path) → backtrack k suffix path = [].
Proof.
  induction suffix as [|x suffix IH]; intros path Hlt.
  - rewrite backtrack_nil, decide_False by lia. done.
  - rewrite backtrack_cons, decide_False by lia.
    rewrite !IH; [done|lia|rewrite length_app; simpl; lia].
Qed.

Lemma backtrack_subsequences k suffix : ∀ path,
  Z.of_nat (length path) ≤ k →
  backtrack k suffix path
  = (path ++.) <$>
      subsequences_of_length (Z.to_nat (k - Z.of_nat (length path))) suffix.
Proof.
  induction suffix as [|x suffix IH]; intros path Hle.
  - rewrite backtrack_nil.
    destruct (decide (Z.of_nat (length path) = k)) as [Heq|Hne].
    + replace (k - _) with 0 by lia. simpl. by rewrite app_nil_r.
    + destruct (Z.to_nat (k - Z.of_nat (length path))) eqn:E; [lia|done].
  - rewrite backtrack_cons.
    destruct (decide (Z.of_nat (length path) = k)) as [Heq|Hne].
    + replace (k - _) with 0 by lia. simpl. by rewrite app_nil_r.
    + destruct (Z.to_nat (k - Z.of_nat (length path))) as [|n] eqn:E; [lia|].
      rewrite !IH by (try rewrite length_app; simpl; lia).
      rewrite length_app. simpl length.
      replace (Z.to_nat (k - Z.of_nat (length path + 1))) with n by lia.
      rewrite E. simpl. rewrite fmap_app, <-list_fmap_compose. f_equal.
      apply list_fmap_ext. intros _ r _. simpl. by rewrite <-app_assoc.
Qed.

Lemma choose_subsequences l k :
  0 ≤ k → choose l k = subsequences_of_length (Z.to_nat k) l.
Proof.
  intros Hk. unfold choose. rewrite backtrack_subsequences by (simpl; lia).
  simpl. rewrite Z.sub_0_r. apply list_fmap_id.
Qed.

Lemma choose_negative l k : k < 0 → choose l k = [].
Proof. intros Hk. apply backtrack_overlong. simpl. lia. Qed.

Lemma subsequences_of_length_0 l : subsequences_of_length 0 l = [[]].
Proof. by destruct l. Qed.

Lemma elem_of_subsequences n l : ∀ s,
  s ∈ subsequences_of_length n l ↔ sublist s l ∧ length s = n.
Proof.
  revert n. induction l as [|x l IH]; intros [|n] s; simpl.
  - rewrite list_elem_of_singleton. split; [by intros ->|].
    intros [_ Hs]. by apply nil_length_inv.
  - rewrite elem_of_nil. split; [done|]. intros [Hs Hn].
    apply sublist_nil_r in Hs. by subst.
  - rewrite list_elem_of_singleton. split.
    + intros ->. split; [apply sublist_nil_l|done].
    + intros [_ Hs]. by apply nil_length_inv.
  - rewrite elem_of_app, list_elem_of_fmap. split.
    + intros [(r & -> & Hr)|Hs].
      * apply IH in Hr as [Hr <-]. split; [by constructor|done].
      * apply (IH (S n)) in Hs as [Hs Hn]. split; [by constructor|done].
    + intros [Hs Hn]. apply sublist_cons_r in Hs as [Hs|(r & -> & Hr)].
      * right. by apply (IH (S n)).
      * left. exists r. split; [done|]. apply IH. simpl in Hn. split; [done|lia].
Qed.

Lemma subsequences_of_length_length n l :
  length (subsequences_of_length n l) = binomial (length l) n.
Proof.
  revert n. induction l as [|x l IH]; intros [|n]; simpl; try done.
  by rewrite length_app, length_fmap, !IH.
Qed.

Lemma subsequences_of_length_NoDup n l :
  NoDup l → NoDup (subsequences_of_length n l).
Proof.
  intros Hl. revert n. induction Hl as [|x l Hx Hl IH]; intros [|n]; simpl.
  - apply NoDup_singleton.
  - constructor.
  - apply NoDup_singleton.
  - apply NoDup_app. split; [|split].
    + apply NoDup_fmap_2; [|apply IH]. by intros ?? [= ->].
    + intros s Hs Hs'. apply list_elem_of_fmap in Hs as (r & -> & _).
      apply (elem_of_subsequences (S n)) in Hs' as [Hs' _].
      apply Hx. apply sublist_subseteq in Hs'. apply Hs'. left.
    + apply IH.
Qed.

Lemma subsequences_of_length_gt n l :
  (length l < n)%nat → subsequences_of_length n l = [].
Proof.
  revert n. induction l as [|x l IH]; intros [|n] Hn; simpl in *; try lia; try done.
  by rewrite !IH by lia.
Qed.

Lemma subsequences_of_length_all l :
  subsequences_of_length (length l) l = [l].
Proof.
  induction l as [|x l IH]; [done|]. simpl.
  by rewrite IH, subsequences_of_length_gt by lia.
Qed.

Lemma binomial_gt n : ∀ j : nat, (n < j)%nat → binomial n j = 0%nat.
Proof.
  induction n as [|n IH]; intros [|j] Hk; simpl; try lia.
  by rewrite !IH by lia.
Qed.

(** Pascal's rule agrees with the quotient of factorials. *)
Lemma binomial_fact n : ∀ j : nat, (j ≤ n)%nat →
  (binomial n j * (fact j * fact (n - j)) = fact n)%nat.
Proof.
  induction n as [|n IH]; intros [|j] Hk; try lia.
  - simpl. lia.
  - change (binomial (S n) 0) with 1%nat. rewrite Nat.sub_0_r. simpl fact at 1. lia.
  - change (binomial (S n) (S j)) with (binomial n j + binomial n (S j))%nat.
    replace (S n - S j)%nat with (n - j)%nat by lia.
    pose proof (IH j ltac:(lia)) as IHk.
    destruct (decide (j = n)) as [->|Hne].
    + rewrite (binomial_gt n (S n)) by lia. rewrite Nat.sub_diag in *.
      change (fact 0) with 1%nat in *.
      change (fact (S n)) with (S n * fact n)%nat. nia.
    + pose proof (IH (S j) ltac:(lia)) as IHSk.
      replace (n - j)%nat with (S (n - S j)) in * by lia.
      change (fact (S j)) with (S j * fact j)%nat in *.
      change (fact (S (n - S j))) with (S (n - S j) * fact (n - S j))%nat in *.
      change (fact (S n)) with (S n * fact n)%nat.
      replace (S n) with (S j + S (n - S j))%nat at 3 by lia. nia.
Qed.
End Choose.

(** C3: on [n] distinct labels and 0 <= k <= n, [choose] returns C(n, k)
    subsequences (by Pascal's rule, and as the quotient of factorials), with no
    repetition, and they are exactly the subsequences of [labels] of length k,
    in the order of [labels]; for k > n it returns nothing; for k = n it
    returns [labels] alone. *)
Theorem choose_correct (labels : list str) (k : Z) :
  NoDup labels →
  (0 ≤ k ≤ Z.of_nat (length labels) →
     length (choose labels k) = binomial (length labels) (Z.to_nat k)
     ∧ (length (choose labels k)
        * (fact (Z.to_nat k) * fact (length labels - Z.to_nat k))
        = fact (length labels))%nat
     ∧ NoDup (choose labels k)
     ∧ ∀ s, s ∈ choose labels k ↔
            sublist s labels ∧ Z.of_nat (length s) = k)
  ∧ (Z.of_nat (length labels) < k → choose labels k = [])
  ∧ (k = Z.of_nat (length labels) → choose labels k = [labels]).
Proof.
  intros Hlabels. split; [|split].
  - intros Hk. rewrite choose_subsequences by lia.
    rewrite subsequences_of_length_length.
    split; [done|]. split; [apply binomial_fact; lia|].
    split; [by apply subsequences_of_length_NoDup|].
    intros s. rewrite elem_of_subsequences. split; intros [? ?]; split; auto; lia.
  - intros Hk. rewrite choose_subsequences by lia.
    apply subsequences_of_length_gt. lia.
  - intros ->. rewrite choose_subsequences by lia.
    rewrite Nat2Z.id. apply subsequences_of_length_all.
Qed.

Lemma choose_correct_witness :
  NoDup [lit "A"; lit "B"; lit "C"]
  ∧ length (choose [lit "A"; lit "B"; lit "C"] 2) = 3%nat
  ∧ NoDup (choose [lit "A"; lit "B"; lit "C"] 2).
Proof.
  assert (NoDup [lit "A"; lit "B"; lit "C"]) as Hlabels by compute_done.
  split; [exact Hlabels|].
  destruct (choose_correct [lit "A"; lit "B"; lit "C"] 2 Hlabels)
    as (Hin & _ & _).
  destruct Hin as (Hlen & _ & Hnodup & _); [simpl; lia|].
  split; [exact Hlen|exact Hnodup].
Defined.

(** ** The orchestrator *)

Section Orchestrator.
Implicit Types (groups : JsMap (list str)) (k : Z) (g : str).

Lemma map_get_keys {V} (m : JsMap V) g :
  g ∈ map_keys m → is_Some (map_get g m).
Proof.
  unfold map_keys. induction m as [|[g' v] m IH]; simpl.
  - by rewrite elem_of_nil.
  - rewrite elem_of_cons. intros Hg. destruct (decide (g = g')); [by eexists|].
    apply IH. by destruct Hg.
Qed.

Lemma map_get_None {V} (m : JsMap V) g :
  g ∉ map_keys m → map_get g m = None.
Proof.
  unfold map_keys. induction m as [|[g' v] m IH]; simpl; [done|].
  rewrite not_elem_of_cons. intros [Hne Hg]. rewrite decide_False by done. auto.
Qed.

Lemma length_bind_sum {A B} (f : A → list B) (l : list A) :
  length (l ≫= f) = sum_of ((λ x, length (f x)) <$> l).
Proof.
  induction l as [|x l IH]; [done|].
  rewrite bind_cons, length_app, IH. done.
Qed.

Lemma generateValidCombinations_subsequences groups k :
  0 ≤ k →
  generateValidCombinations groups k
  = subsequences_of_length (Z.to_nat k) (map_keys groups) ≫= λ prefixSet,
      cartesian (get_bang groups <$> prefixSet).
Proof.
  intros Hk. unfold generateValidCombinations. by rewrite choose_subsequences.
Qed.

Lemma generateValidCombinations_negative groups k :
  k < 0 → generateValidCombinations groups k = [].
Proof.
  intros Hk. unfold generateValidCombinations. by rewrite choose_negative.
Qed.

Lemma generateValidCombinations_length groups k :
  0 ≤ k →
  length (generateValidCombinations groups k)
  = sum_of ((λ S, product_of ((λ g, length (get_bang groups g)) <$> S))
              <$> subsequences_of_length (Z.to_nat k) (map_keys groups)).
Proof.
  intros Hk. rewrite generateValidCombinations_subsequences by done.
  rewrite length_bind_sum. f_equal. apply list_fmap_ext. intros _ S _.
  by rewrite cartesian_length, <-list_fmap_compose.
Qed.

Lemma elem_of_generateValidCombinations groups k c :
  c ∈ generateValidCombinations groups k ↔
  ∃ S, sublist S (map_keys groups) ∧ Z.of_nat (length S) = k
       ∧ Forall2 (λ item g, item ∈ get_bang groups g) c S.
Proof.
  destruct (decide (0 ≤ k)) as [Hk|Hk].
  - rewrite generateValidCombinations_subsequences by done.
    rewrite list_elem_of_bind. split.
    + intros (S & Hc & HS). exists S.
      apply elem_of_subsequences in HS as [HS Hlen].
      rewrite elem_of_cartesian, Forall2_fmap_r in Hc.
      split; [done|]. split; [lia|done].
    + intros (S & HS & Hlen & Hc). exists S. split.
      * by rewrite elem_of_cartesian, Forall2_fmap_r.
      * apply elem_of_subsequences. split; [done|lia].
  - rewrite generateValidCombinations_negative by lia.
    rewrite elem_of_nil. split; [done|]. intros (S & _ & Hlen & _). lia.
Qed.

Lemma product_of_0 (ns : list nat) : 0%nat ∈ ns → product_of ns = 0%nat.
Proof.
  induction ns as [|n ns IH]; [by rewrite elem_of_nil|].
  rewrite elem_of_cons. intros [<-|Hin]; [done|].
  change (product_of (n :: ns)) with (n * product_of ns)%nat.
  rewrite IH by done. lia.
Qed.

(** A chosen subset that holds an empty group yields no tuple. *)
Lemma cartesian_empty_group groups (S : list str) g :
  g ∈ S → get_bang groups g = [] → cartesian (get_bang groups <$> S) = [].
Proof.
  intros Hg Hempty. apply nil_length_inv.
  rewrite cartesian_length. apply product_of_0.
  rewrite <-list_fmap_compose. apply list_elem_of_fmap. exists g.
  split; [|done]. simpl. by rewrite Hempty.
Qed.

Lemma bind_subsequences_filter {B} (P : str → Prop)
    `{!∀ g, Decision (P g)} (l : list str) :
  ∀ (n : nat) (F : list str → list B),
    (∀ S g, g ∈ S → ¬ P g → F S = []) →
    subsequences_of_length n l ≫= F
    = subsequences_of_length n (filter P l) ≫= F.
Proof.
  induction l as [|x l IH]; intros [|n] F HF; try done.
  - by rewrite !subsequences_of_length_0.
  - assert (∀ S g, g ∈ S → ¬ P g → (F ∘ (x ::.)) S = []) as HFx.
    { intros S g Hg HP. simpl. apply (HF _ g); [by right|done]. }
    simpl subsequences_of_length at 1. rewrite bind_app, list_fmap_bind.
    rewrite filter_cons. destruct (decide (P x)) as [HP|HP].
    + simpl subsequences_of_length. rewrite bind_app, list_fmap_bind.
      by rewrite (IH n (F ∘ (x ::.)) HFx), (IH (S n) F HF).
    + rewrite <-(IH (S n) F HF).
      assert (subsequences_of_length n l ≫= F ∘ (x ::.) = []) as ->; [|done].
      generalize (subsequences_of_length n l). intros ss.
      induction ss as [|S ss IHss]; [done|].
      rewrite bind_cons, IHss. simpl. rewrite (HF _ x); [done|left|done].
Qed.

Lemma get_bang_cons_ne groups g g' v :
  g ≠ g' → get_bang ((g', v) :: groups) g = get_bang groups g.
Proof. intros Hne. unfold get_bang. simpl. by rewrite decide_False. Qed.

Lemma get_bang_nonempty_groups groups g :
  map_wf groups → get_bang (nonempty_groups groups) g = get_bang groups g.
Proof.
  unfold map_wf, map_keys, nonempty_groups, get_bang.
  induction groups as [|[g' v] groups IH]; [done|].
  rewrite fmap_cons, NoDup_cons, filter_cons. simpl. intros [Hg' Hwf].
  destruct (decide (v ≠ [])) as [Hv|Hv]; simpl.
  - destruct (decide (g = g')); [done|auto].
  - destruct (decide (g = g')) as [->|]; [|auto].
    apply dec_stable in Hv. subst v. simpl.
    rewrite map_get_None; [done|]. unfold map_keys.
    intros Hin. apply Hg'.
    eapply (sublist_subseteq _ _ _ _ Hin). Unshelve.
    apply fmap_sublist, sublist_filter.
Qed.

Lemma filter_ext_elem_of {A} (P Q : A → Prop)
    `{!∀ x, Decision (P x), !∀ x, Decision (Q x)} (l : list A) :
  (∀ x, x ∈ l → P x ↔ Q x) → filter P l = filter Q l.
Proof.
  induction l as [|a l IH]; intros HPQ; [done|].
  rewrite !filter_cons, IH by (intros x Hx; apply HPQ; by right).
  destruct (decide (P a)) as [HP|HP].
  - by rewrite decide_True by (apply HPQ; [left|done]).
  - rewrite decide_False; [done|]. intros HQ. apply HP, HPQ; [left|done].
Qed.

Lemma map_keys_nonempty_groups groups :
  map_wf groups →
  map_keys (nonempty_groups groups)
  = filter (λ g, get_bang groups g ≠ []) (map_keys groups).
Proof.
  unfold map_wf, map_keys, nonempty_groups.
  induction groups as [|[g' v] groups IH]; [done|].
  rewrite fmap_cons, NoDup_cons. simpl. intros [Hg' Hwf].
  rewrite !filter_cons.
  rewrite (filter_ext_elem_of (λ g, get_bang ((g', v) :: groups) g ≠ [])
             (λ g, get_bang groups g ≠ [])).
  - assert (get_bang ((g', v) :: groups) g' = v) as ->.
    { unfold get_bang. simpl. by rewrite decide_True. }
    change ((g', v).2) with v.
    destruct (decide (v ≠ [])); rewrite ?fmap_cons, IH; done.
  - intros g Hg. rewrite get_bang_cons_ne; [done|]. by intros ->.
Qed.

Lemma generateValidCombinations_nonempty_groups groups k :
  map_wf groups →
  generateValidCombinations groups k
  = generateValidCombinations (nonempty_groups groups) k.
Proof.
  intros Hwf. destruct (decide (0 ≤ k)) as [Hk|Hk].
  - rewrite !generateValidCombinations_subsequences by done.
    rewrite map_keys_nonempty_groups by done.
    rewrite (bind_subsequences_filter (λ g, get_bang groups g ≠ [])).
    + apply list_bind_ext; [|done]. intros S. f_equal.
      apply list_fmap_ext. intros _ g _. by rewrite get_bang_nonempty_groups.
    + intros S g Hg Hempty. apply dec_stable in Hempty.
      by apply (cartesian_empty_group groups S g).
  - by rewrite !generateValidCombinations_negative by lia.
Qed.
End Orchestrator.

(** C2: when 1 <= length <= the number of groups with an item, the number of
    combinations [generateValidCombinations] returns is the sum, over the
    subsets S of [length] group labels, of the product of the sizes of the
    groups of S. The subsets are enumerated without repetition as the
    subsequences of the labels that have [length] elements. *)
Theorem generateValidCombinations_count (groups : JsMap (list str)) (k : Z) :
  map_wf groups →
  1 ≤ k ≤ Z.of_nat (length (nonempty_groups groups)) →
  let subsets := subsequences_of_length (Z.to_nat k) (map_keys groups) in
  NoDup subsets
  ∧ (∀ S, S ∈ subsets ↔
          sublist S (map_keys groups) ∧ Z.of_nat (length S) = k)
  ∧ length (generateValidCombinations groups k)
    = sum_of ((λ S, product_of ((λ g, length (get_bang groups g)) <$> S))
                <$> subsets).
Proof.
  intros Hwf Hk subsets. split; [by apply subsequences_of_length_NoDup|].
  split.
  - intros S. unfold subsets. rewrite elem_of_subsequences.
    split; intros [? ?]; split; auto; lia.
  - apply generateValidCombinations_length. lia.
Qed.

Lemma generateValidCombinations_count_witness :
  length (generateValidCombinations (expandItems [3; 2; 1]) 2) = 11%nat.
Proof.
  assert (map_wf (expandItems [3; 2; 1])) as Hwf by compute_done.
  destruct (generateValidCombinations_count (expandItems [3; 2; 1]) 2 Hwf)
    as (_ & _ & Hcount); [by compute|].
  rewrite Hcount. reflexivity.
Defined.

(** C7: every combination [generateValidCombinations] returns for a length
    >= 1 has exactly [length] item labels, and they are drawn, position by
    position, from pairwise distinct groups of the mapping. *)
Theorem generateValidCombinations_invariant
    (groups : JsMap (list str)) (k : Z) (c : Combo) :
  map_wf groups →
  1 ≤ k →
  c ∈ generateValidCombinations groups k →
  Z.of_nat (length c) = k
  ∧ ∃ S : list str,
      NoDup S
      ∧ Forall2 (λ item g, ∃ members, map_get g groups = Some members
                                       ∧ item ∈ members) c S.
Proof.
  intros Hwf Hk Hc.
  apply elem_of_generateValidCombinations in Hc as (S & HS & Hlen & Hc).
  split; [apply Forall2_length in Hc; lia|].
  exists S. split; [by eapply sublist_NoDup|].
  eapply Forall2_impl; [exact Hc|]. intros item g. unfold get_bang.
  destruct (map_get g groups) as [members|]; simpl.
  - intros Hitem. by exists members.
  - by rewrite elem_of_nil.
Qed.

Lemma generateValidCombinations_invariant_witness :
  Z.of_nat (length [lit "A1"; lit "B2"]) = 2.
Proof.
  assert (map_wf (expandItems [1; 2; 1])) as Hwf by compute_done.
  assert ([lit "A1"; lit "B2"]
          ∈ generateValidCombinations (expandItems [1; 2; 1]) 2) as Hc
    by compute_done.
  exact (proj1 (generateValidCombinations_invariant
                  (expandItems [1; 2; 1]) 2 [lit "A1"; lit "B2"] Hwf
                  ltac:(lia) Hc)).
Defined.

(** ** The labeler *)

Section Labeler.
Implicit Types (m groups : JsMap (list str)) (c count : Z) (items : list Z).

Lemma map_set_fresh {V} (k : list N) (v : V) (m : JsMap V) :
  k ∉ map_keys m → map_set k v m = m ++ [(k, v)].
Proof.
  unfold map_keys. induction m as [|[k' v'] m IH]; simpl; [done|].
  rewrite not_elem_of_cons. intros [Hne Hk].
  rewrite decide_False by done. by rewrite IH.
Qed.

Lemma map_keys_map_set {V} (k : list N) (v : V) (m : JsMap V) :
  map_keys (map_set k v m)
  = if decide (k ∈ map_keys m) then map_keys m else map_keys m ++ [k].
Proof.
  unfold map_keys. induction m as [|[k' v'] m IH]; [done|].
  cbn [map_set]. destruct (decide (k = k')) as [->|Hne]; rewrite !fmap_cons.
  - cbn [fst]. rewrite decide_True by left. done.
  - cbn [fst]. rewrite IH. destruct (decide (k ∈ m.*1)) as [Hin|Hin].
    + rewrite decide_True by (by right). done.
    + rewrite decide_False; [done|]. rewrite elem_of_cons. tauto.
Qed.

Lemma map_wf_map_set {V} (k : list N) (v : V) (m : JsMap V) :
  map_wf m → map_wf (map_set k v m).
Proof.
  unfold map_wf. rewrite map_keys_map_set. intros Hwf.
  destruct (decide (k ∈ map_keys m)); [done|].
  apply NoDup_app. split; [done|]. split; [|apply NoDup_singleton].
  intros x Hx ->%list_elem_of_singleton. done.
Qed.

Lemma map_values_map_set {V} (P : V → Prop) (k : list N) (v : V) (m : JsMap V) :
  P v → Forall P m.*2 → Forall P (map_set k v m).*2.
Proof.
  intros Hv. induction m as [|[k' v'] m IH]; simpl.
  - by repeat constructor.
  - rewrite Forall_cons. intros [Hv' Hm].
    destruct (decide (k = k')); simpl; constructor; auto.
Qed.

(** The loop of [expandItems] keeps three invariants: the keys are distinct,
    every key is a single code unit below 2^16, and the groups are as large
    as the counts met so far allow. *)
Lemma foldl_expandItems_step_wf items : ∀ m c,
  map_wf m → map_wf (foldl expandItems_step (m, c) items).1.
Proof.
  induction items as [|count items IH]; intros m c Hwf; [done|].
  simpl. apply IH. by apply map_wf_map_set.
Qed.

Lemma expandItems_wf items : map_wf (expandItems items).
Proof. apply foldl_expandItems_step_wf. constructor. Qed.

Lemma String_fromCharCode_code_unit c : code_unit_label (String_fromCharCode c).
Proof.
  exists (Z.to_nat (c mod 65536)).
  pose proof (Z.mod_pos_bound c 65536 ltac:(lia)).
  split; [lia|]. unfold String_fromCharCode. f_equal. lia.
Qed.

Lemma foldl_expandItems_step_keys items : ∀ m c,
  Forall code_unit_label (map_keys m) →
  Forall code_unit_label (map_keys (foldl expandItems_step (m, c) items).1).
Proof.
  induction items as [|count items IH]; intros m c Hm; [done|].
  simpl. apply IH. rewrite map_keys_map_set.
  destruct (decide (_ ∈ _)); [done|].
  apply Forall_app. split; [done|]. constructor; [|constructor].
  apply String_fromCharCode_code_unit.
Qed.

(** However long the input, the map never has more than 2^16 groups. *)
Lemma expandItems_size_bound items :
  (length (expandItems items) ≤ Z.to_nat 65536)%nat.
Proof.
  pose proof (expandItems_wf items) as Hwf.
  pose proof (foldl_expandItems_step_keys items [] 65 ltac:(constructor)) as Hk.
  fold (expandItems items) in Hk. unfold map_wf in Hwf.
  assert (map_keys (expandItems items)
          ⊆+ (λ n : nat, [N.of_nat n]) <$> seq 0 (Z.to_nat 65536)) as Hsub.
  { apply NoDup_submseteq; [done|].
    intros k Hin. rewrite Forall_forall in Hk.
    destruct (Hk k Hin) as (n & Hn & ->).
    apply list_elem_of_fmap. exists n. split; [done|]. apply elem_of_seq. lia. }
  apply submseteq_length in Hsub. unfold map_keys in Hsub.
  by rewrite !length_fmap, length_seq in Hsub.
Qed.

Lemma foldl_expandItems_step_values (P : list (list N) → Prop) items :
  (∀ prefix count, count ∈ items →
     P ((λ i, prefix ++ Number_toString i) <$> seqZ 1 count)) →
  ∀ m c, Forall P m.*2 → Forall P (foldl expandItems_step (m, c) items).1.*2.
Proof.
  induction items as [|count items IH]; intros HP m c Hm; [done|].
  simpl. apply IH.
  - intros prefix count' Hin. apply HP. by right.
  - apply map_values_map_set; [|done].
    apply (HP (String_fromCharCode c) count). left.
Qed.
Lemma String_fromCharCode_ne a b :
  0 < b - a < 65536 → String_fromCharCode a ≠ String_fromCharCode b.
Proof.
  intros Hab [= Heq].
  pose proof (Z.mod_pos_bound a 65536 ltac:(lia)).
  pose proof (Z.mod_pos_bound b 65536 ltac:(lia)).
  apply (f_equal Z.of_N) in Heq. rewrite !Z2N.id in Heq by lia.
  revert Heq. clear -Hab. Z.div_mod_to_equations. lia.
Qed.

Lemma foldl_expandItems_step_fresh items : ∀ m c,
  Z.of_nat (length items) ≤ 65536 →
  (∀ i, (i < length items)%nat →
        String_fromCharCode (c + Z.of_nat i) ∉ map_keys m) →
  foldl expandItems_step (m, c) items
  = (m ++ imap (λ i count, group_at (c + Z.of_nat i) count) items,
     c + Z.of_nat (length items)).
Proof.
  induction items as [|count items IH]; intros m c Hlen Hfresh.
  - simpl. by rewrite app_nil_r, Z.add_0_r.
  - cbn [foldl expandItems_step]. rewrite map_set_fresh.
    2:{ specialize (Hfresh 0%nat ltac:(simpl; lia)).
        by rewrite Z.add_0_r in Hfresh. }
    rewrite IH.
    + rewrite imap_cons, <-app_assoc.
      change (Z.of_nat 0) with 0. rewrite Z.add_0_r.
      assert (imap (λ i count, group_at (c + 1 + Z.of_nat i) count) items
              = imap ((λ i count, group_at (c + Z.of_nat i) count) ∘ S) items)
        as ->.
      { apply imap_ext. intros i x _. simpl.
        by replace (c + 1 + Z.of_nat i) with (c + Z.of_nat (S i)) by lia. }
      f_equal. simpl length. lia.
    + simpl in Hlen. lia.
    + intros i Hi. unfold map_keys. rewrite fmap_app, elem_of_app.
      intros [Hin|Hin].
      * apply (Hfresh (S i) ltac:(simpl; lia)).
        by replace (c + Z.of_nat (S i)) with (c + 1 + Z.of_nat i) by lia.
      * simpl in Hin. apply list_elem_of_singleton in Hin.
        symmetry in Hin. revert Hin. apply String_fromCharCode_ne.
        simpl in Hlen. lia.
Qed.

(** Up to 2^16 counts, no label repeats and the map lists one group per
    count, in order. *)
Lemma expandItems_imap items :
  Z.of_nat (length items) ≤ 65536 →
  expandItems items = imap (λ i count, group_at (65 + Z.of_nat i) count) items.
Proof.
  intros Hlen. unfold expandItems.
  rewrite foldl_expandItems_step_fresh; [done|done|].
  intros i _. unfold map_keys. simpl. apply not_elem_of_nil.
Qed.

Lemma foldl_expandItems_step_prefix items : ∀ m c,
  map_keys m `prefix_of` map_keys (foldl expandItems_step (m, c) items).1.
Proof.
  induction items as [|count items IH]; intros m c; [done|].
  cbn [foldl expandItems_step]. etrans; [|apply IH].
  rewrite map_keys_map_set. destruct (decide (_ ∈ _)); [done|].
  by apply prefix_app_r.
Qed.

(** The first 2^16 labels are settled once and for all: later turns of the
    loop overwrite groups but add no key. *)
Lemma expandItems_keys_lookup items (i : nat) count :
  items !! i = Some count →
  (i < Z.to_nat 65536)%nat →
  map_keys (expandItems items) !! i
  = Some (String_fromCharCode (65 + Z.of_nat i)).
Proof.
  intros Hi Hlt. unfold expandItems.
  rewrite <-(take_drop (Z.to_nat 65536) items), foldl_app.
  rewrite (foldl_expandItems_step_fresh (take (Z.to_nat 65536) items)).
  - eapply prefix_lookup_Some; [|apply foldl_expandItems_step_prefix].
    unfold map_keys. rewrite app_nil_l, list_lookup_fmap, list_lookup_imap.
    rewrite lookup_take, decide_True, Hi by done. done.
  - rewrite length_take. lia.
  - intros j _. apply not_elem_of_nil.
Qed.

Lemma map_get_lookup {V} (m : JsMap V) (i : nat) k (v : V) :
  map_wf m → m !! i = Some (k, v) → map_get k m = Some v.
Proof.
  unfold map_wf, map_keys. revert i.
  induction m as [|[k' v'] m IH]; intros i; [done|].
  rewrite fmap_cons, NoDup_cons. cbn [fst]. intros [Hk' Hwf].
  destruct i as [|i]; simpl.
  - intros [= -> ->]. by rewrite decide_True.
  - intros Hi. rewrite decide_False; [by eapply IH|].
    intros ->. apply Hk'. apply list_elem_of_fmap. exists (k', v).
    split; [done|]. by eapply list_elem_of_lookup_2.
Qed.

Lemma latin_alphabet_lookup (i : nat) :
  (i < 26)%nat →
  latin_alphabet !! i = Some (String_fromCharCode (65 + Z.of_nat i)).
Proof.
  intros Hi. do 26 (destruct i as [|i]; [reflexivity|]). lia.
Qed.

Lemma sum_Z_replicate (n : nat) (x : Z) :
  sum_Z (replicate n x) = Z.of_nat n * x.
Proof.
  induction n as [|n IH]; [done|].
  rewrite replicate_S. unfold sum_Z in *. simpl foldr. rewrite IH. lia.
Qed.

Lemma all_items_length_imap (f : nat → Z → list N * list (list N)) items :
  (∀ i count, length (f i count).2 = Z.to_nat count) →
  Forall (λ count, 0 ≤ count) items →
  Z.of_nat (length (all_items (imap f items))) = sum_Z items.
Proof.
  unfold all_items. intros Hf Hitems. revert f Hf.
  induction Hitems as [|count items Hcount _ IH]; intros f Hf; [done|].
  rewrite imap_cons, fmap_cons. simpl concat. rewrite length_app, Hf.
  unfold sum_Z in *. simpl foldr. rewrite <-(IH (f ∘ S)).
  - lia.
  - intros i count'. apply Hf.
Qed.

Lemma all_items_length_singletons groups :
  Forall (λ members, length members = 1%nat) groups.*2 →
  length (all_items groups) = length groups.
Proof.
  unfold all_items. induction groups as [|[k v] groups IH]; [done|].
  rewrite fmap_cons, Forall_cons. cbn [snd]. intros [Hv Hgroups].
  simpl. rewrite length_app, Hv, IH by done. done.
Qed.
End Labeler.

(** C5, as the specification states it, fails twice: the 27th group is
    labelled with the code unit after "Z", which is no letter; and from the
    65537th group on the labels wrap around to labels already used, whose
    groups are overwritten, so fewer item labels exist than the counts add
    up to. *)
Lemma expandItems_claim_fails :
  ¬ labels_are_letters (replicate 27 1)
  ∧ map_keys (expandItems (replicate 27 1)) !! 26%nat = Some (lit "[")
  ∧ ¬ total_is_sum (replicate (Z.to_nat 65537) 1).
Proof.
  split; [|split].
  - intros Hclaim. destruct (Hclaim 26%nat) as [[label Hlabel] _].
    + rewrite length_replicate. lia.
    + discriminate Hlabel.
  - reflexivity.
  - unfold total_is_sum. rewrite sum_Z_replicate.
    set (items := replicate (Z.to_nat 65537) 1).
    rewrite all_items_length_singletons.
    + pose proof (expandItems_size_bound items). lia.
    + apply foldl_expandItems_step_values; [|constructor].
      intros prefix count ->%elem_of_replicate_inv. reflexivity.
Qed.

(** C5, amended: for non-negative counts, the first 26 groups are labelled
    with the letters of the Latin alphabet in order; and as long as there are
    at most 2^16 counts, the group of a count > 0 holds exactly the items
    label1 .. labelcount in order, and the groups hold as many item labels
    as the counts add up to. *)
Theorem expandItems_correct (items : list Z) :
  Forall (λ count, 0 ≤ count) items →
  (∀ i, (i < length items)%nat → (i < 26)%nat →
     is_Some (latin_alphabet !! i)
     ∧ map_keys (expandItems items) !! i = latin_alphabet !! i)
  ∧ (Z.of_nat (length items) ≤ 65536 →
     groups_are_populated items ∧ total_is_sum items).
Proof.
  intros Hnonneg. split.
  - intros i Hi Hi26. rewrite latin_alphabet_lookup by done.
    split; [by eexists|].
    destruct (lookup_lt_is_Some_2 items i Hi) as [count Hcount].
    eapply expandItems_keys_lookup; [done|lia].
  - intros Hlen. pose proof (expandItems_imap items Hlen) as Himap. split.
    + intros i count label Hi Hlabel Hpos.
      rewrite (expandItems_keys_lookup items i count Hi) in Hlabel.
      2:{ apply lookup_lt_Some in Hi. lia. }
      injection Hlabel as <-.
      exists (group_at (65 + Z.of_nat i) count).2. split; [|split].
      * apply (map_get_lookup _ i); [apply expandItems_wf|].
        by rewrite Himap, list_lookup_imap, Hi.
      * simpl. rewrite length_fmap, length_seqZ. lia.
      * intros j Hj. simpl. rewrite list_lookup_fmap.
        rewrite lookup_seqZ_lt by lia. simpl. do 3 f_equal. lia.
    + unfold total_is_sum. rewrite Himap.
      apply all_items_length_imap; [|done].
      intros i count. simpl. by rewrite length_fmap, length_seqZ.
Qed.

Lemma expandItems_correct_witness :
  total_is_sum [1; 2; 1] ∧ groups_are_populated [1; 2; 1].
Proof.
  destruct (expandItems_correct [1; 2; 1]) as (_ & Hbounded).
  - repeat constructor; lia.
  - destruct Hbounded as (Hpopulated & Htotal); [simpl; lia|].
    split; [exact Htotal|exact Hpopulated].
Defined.

(** C10: for every list of group sizes and every length >= 1,
    [generateValidCombinations] returns the same list on the map
    [expandItems] builds, which keeps the groups of size 0, as on that map
    restricted to the groups with an item; a chosen subset that holds a
    group with no item yields no tuple. *)
Theorem generateValidCombinations_empty_groups (items : list Z) (k : Z) :
  1 ≤ k →
  generateValidCombinations (expandItems items) k
  = generateValidCombinations (nonempty_groups (expandItems items)) k
  ∧ ∀ (S : list str) g,
      g ∈ S → get_bang (expandItems items) g = [] →
      cartesian (get_bang (expandItems items) <$> S) = [].
Proof.
  intros _. split.
  - apply generateValidCombinations_nonempty_groups, expandItems_wf.
  - apply cartesian_empty_group.
Qed.

Lemma generateValidCombinations_empty_groups_witness :
  generateValidCombinations (expandItems [1; 0; 2]) 2
  = generateValidCombinations (nonempty_groups (expandItems [1; 0; 2])) 2.
Proof.
  exact (proj1 (generateValidCombinations_empty_groups [1; 0; 2] 2 ltac:(lia))).
Defined.

(** ** Transactions *)

Section Persistence.
Context (drv : Driver).
Implicit Types (tr : list Call) (e : Exception).

Lemma orderly_ret {A} (a : A) : orderly (ret a).
Proof.
  intros tr o tr' [= <- <-]. split; [|done].
  exists []. by rewrite app_nil_r.
Qed.

Lemma orderly_throw {A} code : orderly (@throw A (DriverError code)).
Proof.
  intros tr o tr' [= <- <-]. split.
  - exists []. by rewrite app_nil_r.
  - intros e [= <-]. by eexists.
Qed.

Lemma orderly_perform c : orderly (perform drv c).
Proof.
  intros tr o tr'. unfold perform.
  destruct (failure drv (tr ++ [c])) as [code|]; intros [= <- <-].
  - split; [by eexists|]. intros e [= <-]. by eexists.
  - split; [by eexists|done].
Qed.

Lemma orderly_conn_release : orderly conn_release.
Proof. intros tr o tr' [= <- <-]. split; [by eexists|done]. Qed.

Lemma orderly_bind {A B} (m : M A) (k : A → M B) :
  orderly m → (∀ a, orderly (k a)) → orderly (bind m k).
Proof.
  intros Hm Hk tr o tr'. unfold bind.
  destruct (m tr) as [[a|e] tr1] eqn:Em.
  - intros Ek. destruct (Hm _ _ _ Em) as [[calls1 ->] _].
    destruct (Hk a _ _ _ Ek) as [[calls2 ->] He].
    split; [|done]. exists (calls1 ++ calls2). by rewrite app_assoc.
  - intros [= <- <-]. destruct (Hm _ _ _ Em) as [Hcalls He].
    split; [done|]. intros e' [= <-]. by apply He.
Qed.

Lemma orderly_try_catch {A} (body : M A) (handler : Exception → M A) :
  orderly body → (∀ code, orderly (handler (DriverError code))) →
  orderly (try_catch body handler).
Proof.
  intros Hbody Hhandler tr o tr'. unfold try_catch.
  destruct (body tr) as [[a|e] tr1] eqn:Ebody.
  - intros [= <- <-]. destruct (Hbody _ _ _ Ebody) as [Hcalls _].
    split; [done|]. intros e' [=].
  - intros Eh. destruct (Hbody _ _ _ Ebody) as [[calls1 ->] He].
    destruct (He e eq_refl) as [code ->].
    destruct (Hhandler code _ _ _ Eh) as [[calls2 ->] He'].
    split; [|done]. exists (calls1 ++ calls2). by rewrite app_assoc.
Qed.

Lemma orderly_try_finally {A} (body : M A) (cleanup : M unit) :
  orderly body → orderly cleanup → orderly (try_finally body cleanup).
Proof.
  intros Hbody Hcleanup tr o tr'. unfold try_finally.
  destruct (body tr) as [o1 tr1] eqn:Ebody.
  destruct (Hbody _ _ _ Ebody) as [[calls1 ->] He1].
  destruct (cleanup (tr ++ calls1)) as [[u|e] tr2] eqn:Ec;
    destruct (Hcleanup _ _ _ Ec) as [[calls2 ->] He2]; intros [= <- <-].
  - split; [|done]. exists (calls1 ++ calls2). by rewrite app_assoc.
  - split; [exists (calls1 ++ calls2); by rewrite app_assoc|].
    intros e' [= <-]. by apply He2.
Qed.

Lemma orderly_withTransaction (transactionFunction : M Z) :
  orderly transactionFunction → orderly (withTransaction drv transactionFunction).
Proof.
  intros Hfn. unfold withTransaction.
  apply orderly_bind; [apply orderly_perform|]. intros _.
  apply orderly_try_finally; [|apply orderly_conn_release].
  apply orderly_try_catch.
  - apply orderly_bind; [apply orderly_perform|]. intros _.
    apply orderly_bind; [done|]. intros result.
    apply orderly_bind; [apply orderly_perform|]. intros _. apply orderly_ret.
  - intros code. apply orderly_bind; [apply orderly_perform|]. intros _.
    apply orderly_throw.
Qed.

Lemma orderly_insertItems groups : orderly (insertItems drv groups).
Proof.
  unfold insertItems. destruct (decide _); [apply orderly_ret|].
  apply orderly_bind; [apply orderly_perform|]. intros _. apply orderly_ret.
Qed.

Lemma orderly_insertCombinations_loop fuel responseId combos : ∀ i,
  orderly (insertCombinations_loop drv fuel responseId combos i).
Proof.
  induction fuel as [|fuel IH]; intros i; simpl; [apply orderly_ret|].
  destruct (decide _); [|apply orderly_ret].
  apply orderly_bind; [apply orderly_perform|]. intros _. apply IH.
Qed.

Lemma orderly_insertCombinations responseId combos :
  orderly (insertCombinations drv responseId combos).
Proof.
  unfold insertCombinations. destruct (decide _); [apply orderly_ret|].
  apply orderly_insertCombinations_loop.
Qed.

(** A transaction leaves its mark on the trace: it starts by asking the
    pool for a connection. *)
Lemma withTransaction_touches (transactionFunction : M Z) tr o tr' :
  orderly transactionFunction →
  withTransaction drv transactionFunction tr = (o, tr') →
  ∃ calls, tr' = tr ++ getConnection :: calls.
Proof.
  intros Hfn. unfold withTransaction, bind at 1, perform at 1.
  destruct (failure drv (tr ++ [getConnection])) as [code|].
  - intros [= <- <-]. by exists [].
  - intros Erest. eapply orderly_try_finally in Erest as [[calls ->] _].
    + exists calls. by rewrite <-app_assoc.
    + apply orderly_try_catch.
      * apply orderly_bind; [apply orderly_perform|]. intros _.
        apply orderly_bind; [done|]. intros result.
        apply orderly_bind; [apply orderly_perform|]. intros _.
        apply orderly_ret.
      * intros code. apply orderly_bind; [apply orderly_perform|]. intros _.
        apply orderly_throw.
    + apply orderly_conn_release.
Qed.
End Persistence.

(** C9, as the specification states it, fails on both halves. A function
    that throws error 1 while the rollback fails with error 2: the caller
    gets error 2, not the function's error. A function that returns 7
    while the commit fails with error 3: nothing is committed and 7 is not
    returned; rollback and release follow and the call throws. *)
Lemma withTransaction_claim_fails :
  withTransaction rollback_failing (throw (DriverError 1)) []
  = (Thrown (DriverError 2),
     [getConnection; beginTransaction; rollback; release])
  ∧ withTransaction commit_failing (ret 7) []
    = (Thrown (DriverError 3),
       [getConnection; beginTransaction; commit; rollback; release]).
Proof. split; reflexivity. Qed.

(** C9, amended: once the pool has handed out a connection, every exit of
    [withTransaction] ends with the release of the connection. When the
    transaction has begun and the function throws, the only calls that
    follow are [rollback] and [release] (no [commit]), and the call throws:
    the function's exception when the rollback goes through, the
    rollback's otherwise. When the function returns, [commit] is called
    next: if it goes through, [release] follows and the function's result
    is returned; if it fails, [rollback] and [release] follow and the call
    throws the commit's error, or the rollback's if that fails too. *)
Theorem withTransaction_correct
    (drv : Driver) (transactionFunction : M Z) (tr : list Call) :
  failure drv (tr ++ [getConnection]) = None →
  (∃ o tr', withTransaction drv transactionFunction tr = (o, tr' ++ [release]))
  ∧ (failure drv ((tr ++ [getConnection]) ++ [beginTransaction]) = None →
     (∀ e tr1,
        transactionFunction ((tr ++ [getConnection]) ++ [beginTransaction])
        = (Thrown e, tr1) →
        withTransaction drv transactionFunction tr
        = (Thrown
             match failure drv (tr1 ++ [rollback]) with
             | Some code => DriverError code
             | None => e
             end, (tr1 ++ [rollback]) ++ [release]))
     ∧ (∀ r tr1,
          transactionFunction ((tr ++ [getConnection]) ++ [beginTransaction])
          = (Returned r, tr1) →
          withTransaction drv transactionFunction tr
          = match failure drv (tr1 ++ [commit]) with
            | None => (Returned r, (tr1 ++ [commit]) ++ [release])
            | Some code =>
                (Thrown
                   match failure drv ((tr1 ++ [commit]) ++ [rollback]) with
                   | Some code' => DriverError code'
                   | None => DriverError code
                   end,
                 ((tr1 ++ [commit]) ++ [rollback]) ++ [release])
            end)).
Proof.
  intros Hconn.
  unfold withTransaction, bind, try_finally, try_catch, perform, conn_release,
    ret, throw.
  rewrite Hconn. split.
  - repeat case_match; simplify_eq/=; by eexists _, _.
  - intros Hbegin. rewrite Hbegin. split.
    + intros e tr1 Hfn. rewrite Hfn.
      by destruct (failure drv (tr1 ++ [rollback])).
    + intros r tr1 Hfn. rewrite Hfn.
      destruct (failure drv (tr1 ++ [commit])); simpl; [|done].
      by destruct (failure drv ((tr1 ++ [commit]) ++ [rollback])).
Qed.

Lemma withTransaction_correct_witness :
  withTransaction healthy (ret 7) []
  = (Returned 7, [getConnection; beginTransaction; commit; release])
  ∧ withTransaction healthy (throw (DriverError 1)) []
    = (Thrown (DriverError 1),
       [getConnection; beginTransaction; rollback; release]).
Proof.
  split.
  - destruct (withTransaction_correct healthy (ret 7) [] eq_refl)
      as (_ & Hbegun).
    destruct (Hbegun eq_refl) as (_ & Hreturns).
    exact (Hreturns 7 _ eq_refl).
  - destruct (withTransaction_correct healthy (throw (DriverError 1)) []
                eq_refl) as (_ & Hbegun).
    destruct (Hbegun eq_refl) as (Hthrows & _).
    exact (Hthrows (DriverError 1) _ eq_refl).
Defined.

(** ** The entry point *)

Section EntryPoint.
Context (drv : Driver).

Lemma orderly_transaction items len groups allCombos :
  orderly
    (let_await responseId := insertResponse drv items len in
     await insertItems drv groups ;;
     await insertCombinations drv responseId allCombos ;;
     ret responseId).
Proof.
  apply orderly_bind; [apply orderly_perform|]. intros responseId.
  apply orderly_bind; [apply orderly_insertItems|]. intros _.
  apply orderly_bind; [apply orderly_insertCombinations|]. intros _.
  apply orderly_ret.
Qed.

(** What the entry point does with an input that passes validation and has
    enough groups. *)
Lemma generateAndStore_computed x items len tr :
  1 ≤ len → len ≤ map_size (expandItems (x :: items)) →
  ∃ o calls,
    withTransaction drv
      (let_await responseId := insertResponse drv (x :: items) len in
       await insertItems drv (expandItems (x :: items)) ;;
       await insertCombinations drv responseId
         (generateValidCombinations (expandItems (x :: items)) len) ;;
       ret responseId) tr
    = (o, tr ++ getConnection :: calls)
    ∧ (∀ e, o = Thrown e → ∃ code, e = DriverError code)
    ∧ generateAndStore drv
        {| input_items := Some (x :: items); input_length := len |} tr
      = (match o with
         | Returned result =>
             Returned {| result_id := Some result;
                         result_combination :=
                           generateValidCombinations
                             (expandItems (x :: items)) len |}
         | Thrown e => Thrown e
         end, tr ++ getConnection :: calls).
Proof.
  intros Hlen Hsize.
  pose proof (orderly_transaction (x :: items) len (expandItems (x :: items))
                (generateValidCombinations (expandItems (x :: items)) len))
    as Hfn.
  destruct (withTransaction drv _ tr) as [o tr'] eqn:Erun.
  pose proof (withTransaction_touches drv _ _ _ _ Hfn Erun) as [calls ->].
  pose proof (orderly_withTransaction drv _ Hfn _ _ _ Erun) as [_ He].
  exists o, calls. split; [done|]. split; [done|].
  unfold generateAndStore. cbn [input_items input_length].
  rewrite decide_False by lia. rewrite decide_False by lia.
  unfold bind at 1. rewrite Erun. by destruct o.
Qed.
End EntryPoint.

(** C6: the entry point throws "length must be >= 1" exactly when
    length < 1, and otherwise "items must be a non-empty array" exactly when
    items is no array or is empty; a business error leaves the trace of
    driver calls as it was; and an input with length >= 1 and a non-empty
    array never meets a business error. *)
Theorem generateAndStore_validation
    (drv : Driver) (input : GenerateInput) (tr : list Call) :
  let r := generateAndStore drv input tr in
  (input_length input < 1 ↔
   r.1 = Thrown (BadRequestException "length must be >= 1"))
  ∧ (¬ input_length input < 1
     ∧ (input_items input = None ∨ input_items input = Some []) ↔
     r.1 = Thrown (BadRequestException "items must be a non-empty array"))
  ∧ (∀ message, r.1 = Thrown (BadRequestException message) → r.2 = tr)
  ∧ (1 ≤ input_length input →
     (∃ x items, input_items input = Some (x :: items)) →
     ∀ message, r.1 ≠ Thrown (BadRequestException message)).
Proof.
  destruct input as [items len]. cbn [input_items input_length].
  destruct (decide (len < 1)) as [Hlen|Hlen].
  { unfold generateAndStore. cbn [input_items input_length].
    rewrite decide_True by done. cbn.
    repeat split; try done; try lia; try tauto. }
  destruct items as [[|x items]|].
  1,3: unfold generateAndStore; cbn [input_items input_length];
       rewrite decide_False by done; cbn;
       repeat split; try done; try lia; try tauto;
       intros _ (x & l & [=]).
  destruct (decide (len > map_size (expandItems (x :: items)))) as [Hgt|Hle].
  { unfold generateAndStore. cbn [input_items input_length].
    rewrite decide_False by done. rewrite decide_True by done. cbn.
    repeat split; try done; try lia.
    intros [_ [[=]|[=]]]. }
  destruct (generateAndStore_computed drv x items len tr)
    as (o & calls & _ & He & ->); [lia|lia|]. cbn.
  assert (∀ message,
            match o with
            | Returned result =>
                Returned {| result_id := Some result;
                            result_combination :=
                              generateValidCombinations
                                (expandItems (x :: items)) len |}
            | Thrown e => Thrown e
            end ≠ Thrown (BadRequestException message)) as Hno.
  { intros message. destruct o as [result|e]; [done|].
    intros [= ->]. by destruct (He _ eq_refl). }
  split; [|split; [|split]].
  - split; [lia|]. intros Heq. by apply Hno in Heq.
  - split; [intros [_ [[=]|[=]]]|]. intros Heq. by apply Hno in Heq.
  - intros message Heq. by apply Hno in Heq.
  - intros _ _ message. apply Hno.
Qed.

(** C1, as the specification states it, fails: with the sizes [1; 0] and
    length 2 only one group has an item, yet the entry point does not answer
    with the empty result: it opens a transaction, records the request and
    answers with the new identifier. *)
Lemma generateAndStore_claim_fails :
  2 > Z.of_nat (length (nonempty_groups (expandItems [1; 0])))
  ∧ generateAndStore healthy
      {| input_items := Some [1; 0]; input_length := 2 |} []
    = (Returned {| result_id := Some 1; result_combination := [] |},
       [getConnection; beginTransaction;
        query_insert_response [1; 0] 2;
        query_insert_items [(lit "A1", lit "A", Some 1)];
        commit; release]).
Proof. split; reflexivity. Qed.

(** C1, amended: on a non-empty array and a length >= 1, the entry point
    answers with the empty result (no identifier, no combination) exactly
    when the length exceeds the number of groups of the map, the groups
    with no item counted; it then leaves the trace of driver calls as it
    was. Otherwise a connection is asked for and no answer lacks the
    identifier. Up to 2^16 sizes there is one group per size. *)
Theorem generateAndStore_empty_result
    (drv : Driver) (items : list Z) (len : Z) (tr : list Call) :
  items ≠ [] →
  1 ≤ len →
  let r := generateAndStore drv
             {| input_items := Some items; input_length := len |} tr in
  (len > map_size (expandItems items) ↔
   r = (Returned {| result_id := None; result_combination := [] |}, tr))
  ∧ (len ≤ map_size (expandItems items) →
     (∃ calls, r.2 = tr ++ getConnection :: calls)
     ∧ ∀ combos,
         r.1 ≠ Returned {| result_id := None; result_combination := combos |})
  ∧ (Z.of_nat (length items) ≤ 65536 →
     map_size (expandItems items) = Z.of_nat (length items)).
Proof.
  intros Hitems Hlen. destruct items as [|x items]; [done|]. cbn zeta.
  assert (len ≤ map_size (expandItems (x :: items)) →
          (∃ calls,
             (generateAndStore drv
                {| input_items := Some (x :: items); input_length := len |}
                tr).2 = tr ++ getConnection :: calls)
          ∧ ∀ combos,
              (generateAndStore drv
                 {| input_items := Some (x :: items); input_length := len |}
                 tr).1
              ≠ Returned {| result_id := None; result_combination := combos |})
    as Hcomputed.
  { intros Hle.
    destruct (generateAndStore_computed drv x items len tr)
      as (o & calls & _ & _ & ->); [lia|lia|]. cbn.
    split; [by exists calls|]. intros combos. by destruct o. }
  split; [|split; [done|]].
  - split.
    + intros Hgt. unfold generateAndStore. cbn [input_items input_length].
      rewrite decide_False by lia. by rewrite decide_True.
    + intros Heq. destruct (decide (len > map_size (expandItems (x :: items))))
        as [|Hle]; [done|].
      destruct Hcomputed as [[calls Htrace] _]; [lia|].
      rewrite Heq in Htrace. cbn in Htrace.
      apply (f_equal length) in Htrace. rewrite length_app in Htrace.
      simpl in Htrace. lia.
  - intros Hsize. rewrite expandItems_imap by done.
    unfold map_size. by rewrite length_imap.
Qed.

Lemma generateAndStore_empty_result_witness :
  generateAndStore healthy
    {| input_items := Some [1; 1]; input_length := 3 |} []
  = (Returned {| result_id := None; result_combination := [] |}, []).
Proof.
  destruct (generateAndStore_empty_result healthy [1; 1] 3 [])
    as (Hempty & _); [done|lia|].
  apply Hempty. reflexivity.
Defined.

(** ** The combination key *)

Section CombinationKey.
Implicit Types (a b : list N) (combo : list (list N)).

Lemma str_leb_cons x a y b :
  str_leb (x :: a) (y :: b)
  = bool_decide (x < y)%N || (bool_decide (x = y) && str_leb a b).
Proof.
  simpl. destruct (N.ltb_spec x y), (N.eqb_spec x y);
    repeat case_bool_decide; simpl; try done; lia.
Qed.

Global Instance str_le_total : Total str_le.
Proof.
  intros a. unfold str_le. induction a as [|x a IH]; intros [|y b]; auto.
  rewrite !str_leb_cons. destruct (IH b) as [Hab|Hba];
    repeat case_bool_decide; simpl; auto; try lia.
  all: destruct (decide (x = y)); [subst; auto|right; lia || left; lia].
Qed.

Global Instance str_le_trans : Transitive str_le.
Proof.
  unfold str_le. intros a. induction a as [|x a IH]; intros [|y b] [|z c];
    try done.
  rewrite !str_leb_cons. specialize (IH b c).
  repeat case_bool_decide; simpl; try done; try lia; try tauto.
  all: subst; tauto || lia.
Qed.

Global Instance str_le_antisymm : AntiSymm (=) str_le.
Proof.
  unfold str_le. intros a. induction a as [|x a IH]; intros [|y b]; try done.
  rewrite !str_leb_cons. specialize (IH b).
  repeat case_bool_decide; simpl; try done; try lia.
  all: intros; subst; f_equal; auto.
Qed.

(** The default sort puts an array in the one ascending order it has. *)
Lemma Array_sort_sorted combo :
  Sorted str_le (Array_sort combo) ∧ Array_sort combo ≡ₚ combo.
Proof.
  split; [apply (Sorted_merge_sort str_le)|apply merge_sort_Permutation].
Qed.

Lemma Array_sort_permutation combo1 combo2 :
  combo1 ≡ₚ combo2 → Array_sort combo1 = Array_sort combo2.
Proof.
  intros Hperm. apply (Sorted_unique str_le).
  - apply Array_sort_sorted.
  - apply Array_sort_sorted.
  - destruct (Array_sort_sorted combo1) as [_ ->].
    destruct (Array_sort_sorted combo2) as [_ ->]. done.
Qed.

Lemma CHUNK_pos : (0 < CHUNK)%nat.
Proof. unfold CHUNK. lia. Qed.

(** With a driver that does not fail, the loop of [insertCombinations]
    binds the rows of the combinations from index [i] on; the fuel is
    enough as soon as it covers them. *)
Lemma insertCombinations_loop_rows (drv : Driver) responseId
    (combos : list (list (list N))) :
  (∀ t, failure drv t = None) →
  ∀ fuel i tr, (length combos ≤ i + fuel)%nat →
    ∃ calls,
      insertCombinations_loop drv fuel responseId combos i tr
      = (Returned (), tr ++ calls)
      ∧ combination_rows calls
        = (λ c, (responseId, combination_key c, c)) <$> drop i combos.
Proof.
  intros Hok. induction fuel as [|fuel IH]; intros i tr Hfuel.
  - exists []. rewrite app_nil_r, drop_ge by lia. done.
  - cbn [insertCombinations_loop].
    destruct (decide (i < length combos)%nat) as [Hi|Hi].
    + unfold bind, perform. rewrite Hok.
      pose proof CHUNK_pos.
      destruct (IH (i + CHUNK)%nat
                  (tr ++ [query_insert_combinations
                            ((λ c, (responseId, combination_key c, c))
                               <$> take CHUNK (drop i combos))]))
        as (calls & -> & Hrows); [lia|].
      eexists (_ :: calls). rewrite <-app_assoc. split; [done|].
      unfold combination_rows in *. rewrite bind_cons, Hrows.
      rewrite <-fmap_app, <-drop_drop, take_drop. done.
    + exists []. rewrite app_nil_r, drop_ge by lia. done.
Qed.

Lemma insertCombinations_rows (drv : Driver) responseId
    (combos : list (list (list N))) tr :
  (∀ t, failure drv t = None) →
  ∃ calls,
    insertCombinations drv responseId combos tr = (Returned (), tr ++ calls)
    ∧ combination_rows calls
      = (λ c, (responseId, combination_key c, c)) <$> combos.
Proof.
  intros Hok. unfold insertCombinations.
  destruct (decide (length combos = 0%nat)) as [Hnil|Hcons].
  - apply nil_length_inv in Hnil as ->. exists []. by rewrite app_nil_r.
  - apply (insertCombinations_loop_rows drv responseId combos Hok
             (length combos) 0%nat tr). lia.
Qed.

Lemma generateAndStore_returns (drv : Driver) input tr result combos tr' :
  generateAndStore drv input tr
  = (Returned {| result_id := result; result_combination := combos |}, tr') →
  ∃ items,
    input_items input = Some items
    ∧ combos
      = if decide (input_length input > map_size (expandItems items)) then []
        else generateValidCombinations (expandItems items) (input_length input).
Proof.
  destruct input as [items len]. unfold generateAndStore.
  cbn [input_items input_length].
  destruct (decide (len < 1)); [done|].
  destruct items as [[|x items]|]; [done| |done].
  destruct (decide (len > map_size (expandItems (x :: items)))).
  - intros [= <- <- <-]. exists (x :: items).
    by rewrite decide_True.
  - unfold bind at 1. destruct (withTransaction _ _ _) as [[id|e] tr1]; [|done].
    intros [= <- <- <-]. exists (x :: items).
    by rewrite decide_False.
Qed.
End CombinationKey.

Example combination_key_collision :
  combination_key [lit "A1"; lit "B1"] = combination_key [lit "B1"; lit "A1"]
  ∧ generateValidCombinations
      [(lit "A", [lit "X"]); (lit "B", [lit "X"])] 1
    = [[lit "X"]; [lit "X"]]
  ∧ insertCombinations healthy 7 [[lit "A1"; lit "B1"]; [lit "B1"; lit "A1"]] []
    = (Returned (),
       [query_insert_combinations
          [(7, lit "A1|B1", [lit "A1"; lit "B1"]);
           (7, lit "A1|B1", [lit "B1"; lit "A1"])]]).
Proof. repeat split; reflexivity. Qed.

(** * Further properties of the code *)

(** ** Decimal indices *)

Section Decimal.
Implicit Types (d : Decimal.uint) (s : list N).

Lemma uint_digits_are_digits d : Forall (λ c, is_digit c = true) (uint_digits d).
Proof. induction d; simpl; constructor; done. Qed.

Lemma leading_digits_all s :
  Forall (λ c, is_digit c = true) s → leading_digits s = s.
Proof.
  induction 1 as [|c s Hc _ IH]; [done|]. simpl. by rewrite Hc, IH.
Qed.

Lemma digits_value_foldl d : ∀ acc : Z,
  foldl (λ acc c, 10 * acc + (Z.of_N c - 48)) acc (uint_digits d)
  = Z.of_N (Unsigned.of_lu (Decimal.rev d))
    + acc * Z.of_N (10 ^ Unsigned.usize d).
Proof.
  induction d; intros acc; simpl uint_digits; simpl Unsigned.usize;
    [simpl; lia|..];
    cbn [foldl]; rewrite IHd;
    set (r := Unsigned.of_lu (Decimal.rev d));
    unfold Decimal.rev; simpl Decimal.revapp;
    rewrite (Unsigned.of_lu_revapp d); fold (Decimal.rev d); fold r;
    simpl Unsigned.of_lu; rewrite N.pow_succ_r';
    set (p := (10 ^ Unsigned.usize d)%N); lia.
Qed.

Lemma digits_value_uint d :
  digits_value (uint_digits d) = Z.of_N (N.of_uint d).
Proof.
  unfold digits_value. rewrite digits_value_foldl.
  unfold N.of_uint. rewrite Unsigned.of_uint_alt. lia.
Qed.

Lemma trim_start_digit c s :
  is_digit c = true → trim_start (c :: s) = c :: s.
Proof.
  unfold is_digit. intros Hc%bool_decide_eq_true. simpl.
  assert (is_white_space c = false) as ->; [|done].
  apply bool_decide_eq_false. intros Hin.
  repeat (apply elem_of_cons in Hin as [->|Hin]; [lia|]).
  by apply elem_of_nil in Hin.
Qed.

Lemma parseInt10_uint d :
  d ≠ Decimal.Nil →
  parseInt10 (uint_digits d) = Some (Z.of_N (N.of_uint d)).
Proof.
  intros Hd. rewrite <-digits_value_uint.
  pose proof (uint_digits_are_digits d) as Hdigits.
  unfold parseInt10.
  destruct d; [done|..]; simpl uint_digits in *;
    rewrite trim_start_digit by done; cbn match;
    rewrite leading_digits_all by done; cbn match; f_equal; lia.
Qed.

(** What [parseInt] reads off the decimal form of a non-negative integer is
    that integer. *)
Lemma parseInt10_Number_toString (j : Z) :
  0 ≤ j → parseInt10 (Number_toString j) = Some j.
Proof.
  intros Hj. unfold Number_toString. rewrite parseInt10_uint.
  - rewrite DecimalN.Unsigned.of_to. f_equal. lia.
  - destruct (Z.to_N j); [done|]. apply Unsigned.to_uint_nonnil.
Qed.
End Decimal.

(** ** Storing the items *)

Section InsertItems.
Implicit Types (groups : JsMap (list str)) (tr : list Call).

Lemma map_set_entries {V} (P : list N * V → Prop) (k : list N) (v : V)
    (m : JsMap V) :
  Forall P m → P (k, v) → Forall P (map_set k v m).
Proof.
  intros Hm Hkv. induction Hm as [|[k' v'] m Hk' Hm IH]; simpl.
  - by constructor.
  - destruct (decide (k = k')) as [->|]; constructor; auto.
Qed.

Lemma foldl_expandItems_step_entries items : ∀ m c,
  Forall group_entry m →
  Forall group_entry (foldl expandItems_step (m, c) items).1.
Proof.
  induction items as [|count items IH]; intros m c Hm; [done|].
  cbn [foldl expandItems_step]. apply IH, map_set_entries; [done|].
  by exists c, count.
Qed.

Lemma expandItems_entries items : Forall group_entry (expandItems items).
Proof. apply foldl_expandItems_step_entries. constructor. Qed.

Lemma item_rows_codes groups : (item_rows groups).*1.*1 = all_items groups.
Proof.
  unfold item_rows, all_items. induction groups as [|[prefix codes] groups IH];
    [done|].
  rewrite bind_cons, !fmap_app, IH, fmap_cons. simpl concat. f_equal.
  rewrite <-!list_fmap_compose. apply list_fmap_id.
Qed.

Lemma item_rows_nil groups : item_rows groups = [] ↔ all_items groups = [].
Proof.
  rewrite <-item_rows_codes. split; [by intros ->|].
  intros Hnil. by do 2 apply fmap_nil_inv in Hnil.
Qed.

Lemma elem_of_item_rows groups code prefix idx :
  (code, prefix, idx) ∈ item_rows groups ↔
  ∃ codes, (prefix, codes) ∈ groups ∧ code ∈ codes
           ∧ idx = parseInt10 (drop 1 code).
Proof.
  unfold item_rows. rewrite list_elem_of_bind. split.
  - intros ([prefix' codes] & Hrow & Hentry).
    apply list_elem_of_fmap in Hrow as (code' & [= -> -> ->] & Hcode).
    by exists codes.
  - intros (codes & Hentry & Hcode & ->). exists (prefix, codes).
    split; [|done]. apply list_elem_of_fmap. by exists code.
Qed.

Lemma insertItems_run drv groups tr :
  insertItems drv groups tr
  = if decide (item_rows groups = []) then (Returned (), tr)
    else (match failure drv (tr ++ [query_insert_items (item_rows groups)]) with
          | Some code => Thrown (DriverError code)
          | None => Returned ()
          end, tr ++ [query_insert_items (item_rows groups)]).
Proof.
  change (insertItems drv groups tr)
    with ((if decide (length (item_rows groups) = 0%nat) then ret ()
           else bind (perform drv (query_insert_items (item_rows groups)))
                  (λ _, ret ())) tr).
  destruct (decide (length (item_rows groups) = 0%nat)) as [Hnil|Hcons].
  - apply nil_length_inv in Hnil. by rewrite decide_True.
  - rewrite decide_False by (intros Hnil; by rewrite Hnil in Hcons).
    unfold bind, perform, ret. by destruct (failure drv _).
Qed.
End InsertItems.

(** X1: [insertItems] makes no driver call when no group of the map has an
    item, groups or not; otherwise it makes exactly one call, a query that
    binds one row per item, in the order of the map and of each group, each
    row with the label of the group that holds the item; it throws exactly
    when the driver fails that query. *)
Theorem insertItems_one_query
    (drv : Driver) (groups : JsMap (list str)) (tr : list Call) :
  (all_items groups = [] → insertItems drv groups tr = (Returned (), tr))
  ∧ (all_items groups ≠ [] →
     ∃ rows,
       (insertItems drv groups tr).2 = tr ++ [query_insert_items rows]
       ∧ rows.*1.*1 = all_items groups
       ∧ (∀ code prefix idx, (code, prefix, idx) ∈ rows →
            ∃ codes, (prefix, codes) ∈ groups ∧ code ∈ codes)
       ∧ (insertItems drv groups tr).1
         = match failure drv (tr ++ [query_insert_items rows]) with
           | Some code => Thrown (DriverError code)
           | None => Returned ()
           end).
Proof.
  rewrite insertItems_run. split.
  - intros Hnil%item_rows_nil. by rewrite decide_True.
  - intros Hcons. rewrite decide_False by (by rewrite item_rows_nil).
    exists (item_rows groups). split; [done|]. split; [apply item_rows_codes|].
    split; [|done]. intros code prefix idx Hrow.
    apply elem_of_item_rows in Hrow as (codes & ? & ? & _). by exists codes.
Qed.

(** X2: for the map [expandItems] builds, whatever the sizes, every row
    [insertItems] binds is (label ++ j, label, j) for an index j >= 1 in
    decimal: [parseInt] gives back the index the template literal wrote
    behind the one-unit label. *)
Theorem insertItems_expandItems_rows
    (drv : Driver) (items : list Z) (tr : list Call)
    (rows : list (list N * list N * option Z)) :
  (insertItems drv (expandItems items) tr).2 = tr ++ [query_insert_items rows] →
  Forall (λ row, ∃ j, 1 ≤ j
                      ∧ row = (row.1.2 ++ Number_toString j, row.1.2, Some j)
                      ∧ length row.1.2 = 1%nat) rows.
Proof.
  rewrite insertItems_run. destruct (decide _) as [|_]; simpl.
  { intros Htr. apply (f_equal length) in Htr.
    rewrite length_app in Htr. simpl in Htr. lia. }
  intros [= <-]%app_inv_head. apply Forall_forall.
  intros [[code prefix] idx] (codes & Hentry & Hcode & ->)%elem_of_item_rows.
  pose proof (expandItems_entries items) as Hentries.
  rewrite Forall_forall in Hentries.
  destruct (Hentries _ Hentry) as (c & count & [= -> ->]).
  apply list_elem_of_fmap in Hcode as (j & -> & Hj).
  apply elem_of_seqZ in Hj. exists j. split; [lia|]. simpl.
  by rewrite drop_0, parseInt10_Number_toString by lia.
Qed.

Lemma insertItems_expandItems_rows_witness :
  Forall (λ row, ∃ j, 1 ≤ j
                      ∧ row = (row.1.2 ++ Number_toString j, row.1.2, Some j)
                      ∧ length row.1.2 = 1%nat)
    [(lit "A1", lit "A", Some 1); (lit "A2", lit "A", Some 2);
     (lit "B1", lit "B", Some 1)].
Proof.
  exact (insertItems_expandItems_rows healthy [2; 1] [] _ eq_refl).
Defined.

(** ** Storing the combinations *)

Section InsertCombinations.
Context (drv : Driver).
Implicit Types (tr calls : list Call) (combos : list (list (list N))).

Lemma chunk_count_spec (n : nat) :
  ∃ r, (n + CHUNK - 1 = CHUNK * chunk_count n + r ∧ r < CHUNK)%nat.
Proof.
  pose proof CHUNK_pos. unfold chunk_count.
  exists ((n + CHUNK - 1) mod CHUNK)%nat. split.
  - apply Nat.div_mod_eq.
  - apply Nat.mod_upper_bound. lia.
Qed.

Lemma chunk_count_le (n j : nat) :
  (n ≤ j * CHUNK → chunk_count n ≤ j)%nat.
Proof.
  pose proof CHUNK_pos. destruct (chunk_count_spec n) as (r & Heq & Hr).
  generalize dependent (chunk_count n). generalize dependent CHUNK.
  intros c Hc Hr q Heq Hn. nia.
Qed.

Lemma chunk_count_lt (n j : nat) :
  (j * CHUNK < n ↔ j < chunk_count n)%nat.
Proof.
  pose proof CHUNK_pos. destruct (chunk_count_spec n) as (r & Heq & Hr).
  generalize dependent (chunk_count n). generalize dependent CHUNK.
  intros c Hc Hr q Heq. split; intros; nia.
Qed.

(** The loop of [insertCombinations], entered at a multiple of [CHUNK] with
    fuel for what is left, awaits the remaining chunk queries in order. *)
Lemma insertCombinations_loop_perform_all responseId combos : ∀ fuel j tr,
  (length combos ≤ j * CHUNK + fuel)%nat →
  insertCombinations_loop drv fuel responseId combos (j * CHUNK) tr
  = perform_all drv
      ((λ j : nat,
          query_insert_combinations
            ((λ c, (responseId, combination_key c, c))
               <$> take CHUNK (drop (j * CHUNK) combos)))
         <$> seq j (chunk_count (length combos) - j)) tr.
Proof.
  induction fuel as [|fuel IH]; intros j tr Hfuel.
  - pose proof (chunk_count_le (length combos) j ltac:(lia)).
    by replace (chunk_count (length combos) - j)%nat with 0%nat by lia.
  - cbn [insertCombinations_loop].
    destruct (decide (j * CHUNK < length combos)%nat) as [Hlt|Hge].
    + pose proof (proj1 (chunk_count_lt _ _) Hlt).
      replace (chunk_count (length combos) - j)%nat
        with (S (chunk_count (length combos) - S j)) by lia.
      cbn [seq fmap list_fmap perform_all]. unfold bind.
      destruct (perform drv _ tr) as [[z|e] tr1]; [|done].
      replace (j * CHUNK + CHUNK)%nat with (S j * CHUNK)%nat by lia.
      apply IH. pose proof CHUNK_pos. lia.
    + pose proof (chunk_count_le (length combos) j ltac:(lia)).
      by replace (chunk_count (length combos) - j)%nat with 0%nat by lia.
Qed.

Lemma insertCombinations_perform_all responseId combos tr :
  insertCombinations drv responseId combos tr
  = perform_all drv (chunk_queries responseId combos) tr.
Proof.
  unfold insertCombinations, chunk_queries.
  destruct (decide (length combos = 0%nat)) as [Hnil|Hcons].
  - apply nil_length_inv in Hnil as ->. done.
  - rewrite <-(Nat.sub_0_r (chunk_count (length combos))).
    apply (insertCombinations_loop_perform_all responseId combos
             (length combos) 0%nat tr). lia.
Qed.

(** A run of calls ends at the first call the driver fails. *)
Lemma perform_all_run calls : ∀ tr,
  ∃ n : nat,
    (n ≤ length calls)%nat
    ∧ (perform_all drv calls tr).2 = tr ++ take n calls
    ∧ (∀ m, (0 < m < n)%nat → failure drv (tr ++ take m calls) = None)
    ∧ ((perform_all drv calls tr).1 = Returned ()
       ∧ n = length calls
       ∧ (calls ≠ [] → failure drv (tr ++ calls) = None)
       ∨ ∃ code,
           (perform_all drv calls tr).1 = Thrown (DriverError code)
           ∧ (0 < n)%nat
           ∧ failure drv (tr ++ take n calls) = Some code).
Proof.
  induction calls as [|c calls IH]; intros tr.
  - exists 0%nat. simpl. rewrite app_nil_r.
    split; [done|]. split; [done|]. split; [lia|]. by left.
  - cbn [perform_all]. unfold bind, perform.
    destruct (failure drv (tr ++ [c])) as [code|] eqn:Ec.
    + exists 1%nat. simpl. rewrite take_0.
      split; [lia|]. split; [done|]. split; [lia|].
      right. exists code. rewrite Ec. split; [done|]. split; [lia|done].
    + destruct (IH (tr ++ [c])) as (n & Hn & Htr & Hbefore & Hend).
      exists (S n). cbn [take length].
      replace (tr ++ c :: take n calls) with ((tr ++ [c]) ++ take n calls)
        by (by rewrite <-app_assoc).
      split; [lia|]. split; [done|]. split.
      * intros [|m] Hm; [lia|]. cbn [take].
        replace (tr ++ c :: take m calls) with ((tr ++ [c]) ++ take m calls)
          by (by rewrite <-app_assoc).
        destruct m as [|m]; [by rewrite take_0, app_nil_r|].
        apply Hbefore. lia.
      * destruct Hend as [(Ho & -> & Hlast)|(code & Ho & Hpos & Hfail)].
        -- left. split; [done|]. split; [done|]. intros _.
           replace (tr ++ c :: calls) with ((tr ++ [c]) ++ calls)
             by (by rewrite <-app_assoc).
           destruct calls as [|c' calls]; [by rewrite app_nil_r|].
           by apply Hlast.
        -- right. exists code. split; [done|]. split; [lia|done].
Qed.

Lemma chunk_queries_rows responseId combos :
  Forall (λ q, ∃ rows, q = query_insert_combinations rows
                       ∧ (0 < length rows ≤ CHUNK)%nat)
    (chunk_queries responseId combos).
Proof.
  apply Forall_fmap, Forall_forall. intros j Hj%elem_of_seq. simpl.
  eexists. split; [done|]. rewrite length_fmap, length_take, length_drop.
  pose proof CHUNK_pos.
  assert (j * CHUNK < length combos)%nat by (apply chunk_count_lt; lia). lia.
Qed.
End InsertCombinations.

(** X3: [insertCombinations] sends the combinations in chunks of at most
    1000: ceil(n / 1000) queries are due, each binding between 1 and 1000
    rows, together the row of every combination, in order (none for an empty
    list). It awaits them in order and stops at the first one the driver
    fails, whose error it throws; it returns when none fails. *)
Theorem insertCombinations_chunks
    (drv : Driver) (responseId : Z) (combos : list Combo) (tr : list Call) :
  let queries := chunk_queries responseId combos in
  length queries = ((length combos + 999) / 1000)%nat
  ∧ Forall (λ q, ∃ rows, q = query_insert_combinations rows
                         ∧ (0 < length rows ≤ 1000)%nat) queries
  ∧ combination_rows queries
    = (λ c, (responseId, combination_key c, c)) <$> combos
  ∧ ∃ n : nat,
      (n ≤ length queries)%nat
      ∧ (insertCombinations drv responseId combos tr).2 = tr ++ take n queries
      ∧ (∀ m, (0 < m < n)%nat → failure drv (tr ++ take m queries) = None)
      ∧ ((insertCombinations drv responseId combos tr).1 = Returned ()
         ∧ n = length queries
         ∨ ∃ code,
             (insertCombinations drv responseId combos tr).1
             = Thrown (DriverError code)
             ∧ (0 < n)%nat
             ∧ failure drv (tr ++ take n queries) = Some code).
Proof.
  intros queries. split; [|split; [|split]].
  - unfold queries, chunk_queries. rewrite length_fmap, length_seq.
    unfold chunk_count, CHUNK. f_equal. lia.
  - apply chunk_queries_rows.
  - destruct (insertCombinations_rows healthy responseId combos [])
      as (calls & Hrun & <-); [done|].
    rewrite insertCombinations_perform_all in Hrun.
    destruct (perform_all_run healthy (chunk_queries responseId combos) [])
      as (n & _ & Htr & _ & [(_ & -> & _)|(code & Ho & _)]).
    + rewrite Hrun, firstn_all in Htr. simpl in Htr. by subst calls.
    + by rewrite Hrun in Ho.
  - rewrite insertCombinations_perform_all.
    destruct (perform_all_run drv queries tr)
      as (n & Hn & Htr & Hbefore & Hend).
    exists n. split; [done|]. split; [done|]. split; [done|].
    destruct Hend as [(Ho & -> & _)|Hfail]; [by left|by right].
Qed.

(** ** The anatomy of a transaction *)

Section Transaction.
Context (drv : Driver).
Implicit Types (tr : list Call) (fn : M Z).

(** [withTransaction], case by case. *)
Lemma withTransaction_run fn tr :
  withTransaction drv fn tr
  = match failure drv (tr ++ [getConnection]) with
    | Some code => (Thrown (DriverError code), tr ++ [getConnection])
    | None =>
        let begun := (tr ++ [getConnection]) ++ [beginTransaction] in
        let attempt :=
          match failure drv begun with
          | Some code => (Thrown (DriverError code), begun)
          | None =>
              match fn begun with
              | (Returned r, tr1) =>
                  match failure drv (tr1 ++ [commit]) with
                  | Some code => (Thrown (DriverError code), tr1 ++ [commit])
                  | None => (Returned r, tr1 ++ [commit])
                  end
              | (Thrown e, tr1) => (Thrown e, tr1)
              end
          end in
        match attempt with
        | (Returned r, tr1) => (Returned r, tr1 ++ [release])
        | (Thrown e, tr1) =>
            (match failure drv (tr1 ++ [rollback]) with
             | Some code => Thrown (DriverError code)
             | None => Thrown e
             end, (tr1 ++ [rollback]) ++ [release])
        end
    end.
Proof.
  unfold withTransaction, bind, try_finally, try_catch, perform, conn_release,
    ret, throw.
  destruct (failure drv (tr ++ [getConnection])) as [code|]; [done|].
  cbn zeta.
  destruct (failure drv ((tr ++ [getConnection]) ++ [beginTransaction]))
    as [code|]; simpl.
  { destruct (failure drv _); done. }
  destruct (fn _) as [[r|e] tr1]; simpl.
  - destruct (failure drv (tr1 ++ [commit])); simpl; [|done].
    destruct (failure drv ((tr1 ++ [commit]) ++ [rollback])); done.
  - destruct (failure drv (tr1 ++ [rollback])); done.
Qed.
End Transaction.

(** X4: when the pool fails to hand out a connection, [withTransaction]
    throws that error after this single call: nothing is begun, rolled back
    or released. When the connection is there but [beginTransaction] fails,
    [rollback] and [release] are still called and the call throws (the
    error of [beginTransaction] when the rollback goes through). In both
    cases the transaction function plays no part. *)
Theorem withTransaction_early_failure
    (drv : Driver) (transactionFunction : M Z) (tr : list Call) :
  (∀ code, failure drv (tr ++ [getConnection]) = Some code →
     withTransaction drv transactionFunction tr
     = (Thrown (DriverError code), tr ++ [getConnection]))
  ∧ (∀ code,
       failure drv (tr ++ [getConnection]) = None →
       failure drv ((tr ++ [getConnection]) ++ [beginTransaction]) = Some code →
       ∃ e,
         withTransaction drv transactionFunction tr
         = (Thrown e,
            (((tr ++ [getConnection]) ++ [beginTransaction]) ++ [rollback])
              ++ [release])
         ∧ (failure drv
              (((tr ++ [getConnection]) ++ [beginTransaction]) ++ [rollback])
            = None → e = DriverError code))
  ∧ (∀ other : M Z,
       (is_Some (failure drv (tr ++ [getConnection]))
        ∨ is_Some (failure drv ((tr ++ [getConnection]) ++ [beginTransaction]))) →
       withTransaction drv transactionFunction tr
       = withTransaction drv other tr).
Proof.
  split; [|split].
  - intros code Hconn. by rewrite withTransaction_run, Hconn.
  - intros code Hconn Hbegin. rewrite withTransaction_run, Hconn. cbn zeta.
    rewrite Hbegin.
    destruct (failure drv
                (((tr ++ [getConnection]) ++ [beginTransaction]) ++ [rollback]))
      as [code'|].
    + by exists (DriverError code').
    + by exists (DriverError code).
  - intros other Hfail. rewrite !withTransaction_run.
    destruct (failure drv (tr ++ [getConnection])) as [code|]; [done|].
    cbn zeta. destruct Hfail as [[? [=]]|[code Hbegin]]. by rewrite Hbegin.
Qed.

(** ** The unit of work of the entry point *)

Section UnitOfWork.
Context (drv : Driver).
Implicit Types (tr : list Call) (groups : JsMap (list str)).

Lemma perform_all_ok calls : ∀ tr,
  (∀ t, failure drv t = None) →
  perform_all drv calls tr = (Returned (), tr ++ calls).
Proof.
  induction calls as [|c calls IH]; intros tr Hok.
  - simpl. by rewrite app_nil_r.
  - cbn [perform_all]. unfold bind, perform. rewrite Hok, IH by done.
    by rewrite <-app_assoc.
Qed.

Lemma queries_only_ret {A} (a : A) : queries_only (ret a).
Proof.
  intros tr o tr' [= <- <-]. exists []. by rewrite app_nil_r.
Qed.

Lemma queries_only_bind {A B} (m : M A) (k : A → M B) :
  queries_only m → (∀ a, queries_only (k a)) → queries_only (bind m k).
Proof.
  intros Hm Hk tr o tr'. unfold bind.
  destruct (m tr) as [[a|e] tr1] eqn:Em.
  - intros Ek. destruct (Hm _ _ _ Em) as (qs1 & -> & Hqs1).
    destruct (Hk a _ _ _ Ek) as (qs2 & -> & Hqs2).
    exists (qs1 ++ qs2). rewrite app_assoc. split; [done|].
    by apply Forall_app.
  - intros [= <- <-]. apply (Hm _ _ _ Em).
Qed.

Lemma queries_only_perform c :
  is_query c = true → queries_only (perform drv c).
Proof.
  intros Hc tr o tr'. unfold perform.
  destruct (failure drv _); intros [= <- <-]; exists [c]; by repeat constructor.
Qed.

Lemma queries_only_insertItems groups : queries_only (insertItems drv groups).
Proof.
  intros tr o tr'. rewrite insertItems_run. destruct (decide _).
  - apply queries_only_ret.
  - intros [= <- <-]. eexists [_]. by repeat constructor.
Qed.

Lemma queries_only_insertCombinations responseId combos :
  queries_only (insertCombinations drv responseId combos).
Proof.
  intros tr o tr' Hrun. rewrite insertCombinations_perform_all in Hrun.
  destruct (perform_all_run drv (chunk_queries responseId combos) tr)
    as (n & _ & Htr & _). rewrite Hrun in Htr. simpl in Htr. subst tr'.
  eexists. split; [done|]. apply Forall_take.
  eapply Forall_impl; [apply chunk_queries_rows|].
  by intros q (rows & -> & _).
Qed.

Lemma queries_only_transaction items len groups allCombos :
  queries_only
    (let_await responseId := insertResponse drv items len in
     await insertItems drv groups ;;
     await insertCombinations drv responseId allCombos ;;
     ret responseId).
Proof.
  apply queries_only_bind; [by apply queries_only_perform|]. intros responseId.
  apply queries_only_bind; [apply queries_only_insertItems|]. intros _.
  apply queries_only_bind; [apply queries_only_insertCombinations|]. intros _.
  apply queries_only_ret.
Qed.

Lemma transaction_run_ok items len groups allCombos tr :
  (∀ t, failure drv t = None) →
  (let_await responseId := insertResponse drv items len in
   await insertItems drv groups ;;
   await insertCombinations drv responseId allCombos ;;
   ret responseId) tr
  = (Returned (insertId drv (tr ++ [query_insert_response items len])),
     (tr ++ [query_insert_response items len])
       ++ (if decide (all_items groups = []) then []
           else [query_insert_items (item_rows groups)])
       ++ chunk_queries (insertId drv (tr ++ [query_insert_response items len]))
            allCombos).
Proof.
  intros Hok. unfold bind at 1, insertResponse, perform. rewrite Hok.
  unfold bind at 1. rewrite insertItems_run.
  destruct (decide (item_rows groups = [])) as [Hnil|Hcons].
  - rewrite decide_True by (by apply item_rows_nil).
    unfold bind, ret. rewrite insertCombinations_perform_all.
    by rewrite perform_all_ok.
  - rewrite decide_False by (by rewrite <-item_rows_nil).
    rewrite Hok. unfold bind, ret. rewrite insertCombinations_perform_all.
    rewrite perform_all_ok by done. by rewrite <-app_assoc.
Qed.
End UnitOfWork.

(** X5: with a driver that does not fail, a valid request with enough
    groups makes exactly these calls: the connection, the start of the
    transaction, the insert of the request (items and length), one insert
    of the items if there is any, the chunked inserts of the combinations
    under the identifier the request's insert gave, the commit and the
    release; and it returns that identifier with the combinations. *)
Theorem generateAndStore_success
    (drv : Driver) (items : list Z) (len : Z) (tr : list Call) :
  (∀ t, failure drv t = None) →
  items ≠ [] →
  1 ≤ len ≤ map_size (expandItems items) →
  let groups := expandItems items in
  let allCombos := generateValidCombinations groups len in
  let recorded :=
    ((tr ++ [getConnection]) ++ [beginTransaction])
      ++ [query_insert_response items len] in
  let responseId := insertId drv recorded in
  generateAndStore drv
    {| input_items := Some items; input_length := len |} tr
  = (Returned {| result_id := Some responseId;
                 result_combination := allCombos |},
     ((recorded
         ++ (if decide (all_items groups = []) then []
             else [query_insert_items (item_rows groups)])
         ++ chunk_queries responseId allCombos)
        ++ [commit]) ++ [release]).
Proof.
  intros Hok Hitems Hlen. destruct items as [|x items]; [done|]. cbn zeta.
  unfold generateAndStore. cbn [input_items input_length].
  rewrite decide_False by lia. rewrite decide_False by lia.
  unfold bind at 1. rewrite withTransaction_run, Hok. cbn zeta.
  rewrite Hok, transaction_run_ok, Hok by done. done.
Qed.

Lemma generateAndStore_success_witness :
  generateAndStore healthy
    {| input_items := Some [1; 2; 1]; input_length := 2 |} []
  = (Returned {| result_id := Some 1;
                 result_combination :=
                   generateValidCombinations (expandItems [1; 2; 1]) 2 |},
     [getConnection; beginTransaction; query_insert_response [1; 2; 1] 2;
      query_insert_items (item_rows (expandItems [1; 2; 1]));
      query_insert_combinations
        ((λ c, (1, combination_key c, c))
           <$> generateValidCombinations (expandItems [1; 2; 1]) 2);
      commit; release]).
Proof.
  exact (generateAndStore_success healthy [1; 2; 1] 2 []
           (λ _, eq_refl) ltac:(done) ltac:(by compute)).
Defined.

(** X6: whatever the driver does, a valid request with enough groups is
    all or nothing. If the entry point returns, its calls were the
    connection, the start of the transaction, queries only, a commit that
    went through and the release. If it throws, it throws a driver error,
    and either the pool gave no connection, or the calls end with rollback
    and release, after queries only or after a commit that failed. *)
Theorem generateAndStore_atomic
    (drv : Driver) (items : list Z) (len : Z) (tr : list Call) :
  items ≠ [] →
  1 ≤ len ≤ map_size (expandItems items) →
  let r := generateAndStore drv
             {| input_items := Some items; input_length := len |} tr in
  let begun := (tr ++ [getConnection]) ++ [beginTransaction] in
  match r.1 with
  | Returned result =>
      ∃ queries,
        Forall (λ c, is_query c = true) queries
        ∧ r.2 = ((begun ++ queries) ++ [commit]) ++ [release]
        ∧ failure drv ((begun ++ queries) ++ [commit]) = None
        ∧ result_combination result
          = generateValidCombinations (expandItems items) len
        ∧ is_Some (result_id result)
  | Thrown e =>
      (∃ code, e = DriverError code)
      ∧ (r.2 = tr ++ [getConnection]
         ∨ ∃ queries,
             Forall (λ c, is_query c = true) queries
             ∧ (r.2 = ((begun ++ queries) ++ [rollback]) ++ [release]
                ∨ r.2 = (((begun ++ queries) ++ [commit]) ++ [rollback])
                          ++ [release]
                  ∧ is_Some (failure drv ((begun ++ queries) ++ [commit]))))
  end.
Proof.
  intros Hitems Hlen. destruct items as [|x items]; [done|]. cbn zeta.
  pose proof (orderly_transaction drv (x :: items) len
                (expandItems (x :: items))
                (generateValidCombinations (expandItems (x :: items)) len))
    as Horderly.
  pose proof (queries_only_transaction drv (x :: items) len
                (expandItems (x :: items))
                (generateValidCombinations (expandItems (x :: items)) len))
    as Hqueries.
  match type of Hqueries with queries_only ?fn =>
    assert (generateAndStore drv
              {| input_items := Some (x :: items); input_length := len |} tr
            = match withTransaction drv fn tr with
              | (Returned result, tr') =>
                  (Returned
                     {| result_id := Some result;
                        result_combination :=
                          generateValidCombinations
                            (expandItems (x :: items)) len |}, tr')
              | (Thrown e, tr') => (Thrown e, tr')
              end) as ->
  end.
  { unfold generateAndStore. cbn [input_items input_length].
    rewrite decide_False by lia. rewrite decide_False by lia.
    unfold bind at 1. by destruct (withTransaction _ _ _) as [[?|?] ?]. }
  rewrite withTransaction_run.
  destruct (failure drv (tr ++ [getConnection])) as [code|].
  { simpl. split; [by eexists|by left]. }
  cbn zeta.
  destruct (failure drv ((tr ++ [getConnection]) ++ [beginTransaction]))
    as [code|].
  { destruct (failure drv
                (((tr ++ [getConnection]) ++ [beginTransaction]) ++ [rollback]));
      simpl; (split; [by eexists|]); right; exists [];
      (split; [constructor|]); left; by rewrite app_nil_r. }
  match goal with |- context [?fn ((tr ++ _) ++ _)] =>
    destruct (fn ((tr ++ [getConnection]) ++ [beginTransaction]))
      as [[responseId|e] tr1] eqn:Erun end.
  - destruct (Hqueries _ _ _ Erun) as (queries & -> & Hqs).
    destruct (failure drv (_ ++ [commit])) as [code|] eqn:Ecommit.
    + destruct (failure drv (_ ++ [rollback])); simpl;
        (split; [by eexists|]); right; exists queries; (split; [done|]);
        right; by split.
    + simpl. exists queries. split; [done|]. split; [done|]. split; [done|].
      split; [done|]. by eexists.
  - destruct (Hqueries _ _ _ Erun) as (queries & -> & Hqs).
    destruct (Horderly _ _ _ Erun) as [_ He].
    destruct (He e eq_refl) as [code ->].
    destruct (failure drv (_ ++ [rollback])); simpl;
      (split; [by eexists|]); right; exists queries; (split; [done|]);
      by left.
Qed.

Lemma generateAndStore_atomic_witness :
  ∃ queries,
    Forall (λ c, is_query c = true) queries
    ∧ (generateAndStore healthy
         {| input_items := Some [2; 1]; input_length := 1 |} []).2
      = ((([getConnection] ++ [beginTransaction]) ++ queries) ++ [commit])
          ++ [release].
Proof.
  pose proof (generateAndStore_atomic healthy [2; 1] 1 []
                ltac:(done) ltac:(by compute)) as Hatomic.
  cbn zeta in Hatomic.
  destruct (generateAndStore healthy _ []) as [[result|e] tr'] eqn:Erun.
  - destruct Hatomic as (queries & Hqs & Htr & _). by exists queries.
  - discriminate Erun.
Defined.

(** ** Boundaries of the generator *)

Section Boundaries.
Implicit Types (groups : JsMap (list str)) (k : Z) (S : list (list N)).

Lemma sublist_filter_length {A} (P : A → Prop) `{!∀ x, Decision (P x)}
    (l1 l2 : list A) :
  sublist l1 l2 → Forall P l1 → (length l1 ≤ length (filter P l2))%nat.
Proof.
  induction 1 as [|x l1 l2 _ IH|x l1 l2 _ IH]; intros HP.
  - done.
  - apply Forall_cons in HP as [Hx HP]. rewrite filter_cons_True by done.
    simpl. specialize (IH HP). lia.
  - rewrite filter_cons. specialize (IH HP).
    destruct (decide (P x)); simpl; lia.
Qed.

Lemma pick_one_of_each groups S :
  Forall (λ g, get_bang groups g ≠ []) S →
  Forall2 (λ item g, item ∈ get_bang groups g)
    ((λ g, default [] (head (get_bang groups g))) <$> S) S.
Proof.
  induction 1 as [|g S Hg _ IH]; [constructor|].
  rewrite fmap_cons. constructor; [|done].
  destruct (get_bang groups g) as [|item members]; [done|]. simpl. left.
Qed.

Lemma generateValidCombinations_nil_iff groups k :
  map_wf groups →
  generateValidCombinations groups k ≠ [] ↔
  0 ≤ k ≤ Z.of_nat (length (nonempty_groups groups)).
Proof.
  intros Hwf.
  assert (length (nonempty_groups groups)
          = length (filter (λ g, get_bang groups g ≠ []) (map_keys groups)))
    as ->.
  { rewrite <-map_keys_nonempty_groups by done. unfold map_keys.
    by rewrite length_fmap. }
  split.
  - intros Hne. destruct (generateValidCombinations groups k) as [|c cs] eqn:E;
      [done|].
    assert (c ∈ generateValidCombinations groups k) as Hc by (rewrite E; left).
    apply elem_of_generateValidCombinations in Hc as (S & HS & Hlen & Hc).
    split; [lia|]. rewrite <-Hlen. apply inj_le.
    apply sublist_filter_length; [done|].
    clear -Hc. induction Hc as [|item g c S Hitem _ IH]; constructor; [|done].
    intros Hnil. rewrite Hnil in Hitem. by apply elem_of_nil in Hitem.
  - intros Hk.
    set (S := take (Z.to_nat k)
                (filter (λ g, get_bang groups g ≠ []) (map_keys groups))).
    assert (((λ g, default [] (head (get_bang groups g))) <$> S)
            ∈ generateValidCombinations groups k) as Hin.
    { apply elem_of_generateValidCombinations. exists S. split; [|split].
      - etrans; [apply sublist_take|apply sublist_filter].
      - unfold S. rewrite length_take. lia.
      - apply pick_one_of_each. unfold S. apply Forall_take, Forall_forall.
        by intros g [Hg _]%list_elem_of_filter. }
    intros Hnil. rewrite Hnil in Hin. by apply elem_of_nil in Hin.
Qed.

Lemma cartesian_nil_iff (gs : list (list (list N))) :
  cartesian gs = [] ↔ [] ∈ gs.
Proof.
  rewrite cartesian_tuples. induction gs as [|g gs IH]; simpl.
  - rewrite elem_of_nil. split; [done|tauto].
  - rewrite elem_of_cons. destruct g as [|x g].
    + split; [by left|done].
    + rewrite bind_cons. split.
      * intros [Hx _]%app_eq_nil. apply fmap_nil_inv in Hx. right. by apply IH.
      * intros [[=]|Hin]. apply IH in Hin. rewrite Hin. simpl.
        clear. induction g as [|y g IHg]; [done|]. by rewrite bind_cons, IHg.
Qed.

Lemma tuples_app (gs1 gs2 : list (list (list N))) :
  tuples (gs1 ++ gs2) = tuples gs1 ≫= λ t1, (t1 ++.) <$> tuples gs2.
Proof.
  induction gs1 as [|g gs1 IH]; cbn [tuples app].
  - rewrite bind_singleton. apply symmetry, list_fmap_id.
  - rewrite IH. clear IH. induction g as [|x g IHg]; [done|].
    rewrite !bind_cons, bind_app, IHg. f_equal.
    rewrite list_fmap_bind. generalize (tuples gs1). intros ts.
    induction ts as [|t ts IHts]; [done|].
    rewrite !bind_cons, fmap_app, IHts. f_equal.
    by rewrite <-list_fmap_compose.
Qed.

Lemma expandItems_size items :
  map_size (expandItems items) = Z.min (Z.of_nat (length items)) 65536.
Proof.
  destruct (decide (Z.of_nat (length items) ≤ 65536)) as [Hle|Hgt].
  - rewrite expandItems_imap by done. unfold map_size. rewrite length_imap. lia.
  - pose proof (expandItems_size_bound items) as Hbound.
    unfold map_size. revert Hbound.
    assert (Z.of_nat (Z.to_nat 65536) = 65536) as Hn by lia. revert Hn.
    generalize (Z.to_nat 65536). intros n Hn Hbound.
    assert (n ≤ length (expandItems items))%nat; [|lia].
    unfold expandItems. rewrite <-(take_drop n items), foldl_app.
    assert (length (take n items) = n) as Htake by (apply length_take_le; lia).
    rewrite (foldl_expandItems_step_fresh (take n items)).
    + rewrite app_nil_l.
      match goal with |- context [foldl _ (?m, ?c) ?l] =>
        pose proof (foldl_expandItems_step_prefix l m c) as Hprefix end.
      apply prefix_length in Hprefix. unfold map_keys in Hprefix.
      rewrite !length_fmap, length_imap in Hprefix. lia.
    + lia.
    + intros j _. apply not_elem_of_nil.
Qed.
End Boundaries.

(** X7: [generateValidCombinations] returns something exactly when
    0 <= length <= the number of groups that have an item; so with
    length >= 1 it returns nothing exactly when the length exceeds the
    number of non-empty groups, empty groups in the map or not. *)
Theorem generateValidCombinations_nonempty_iff
    (groups : JsMap (list str)) (k : Z) :
  map_wf groups →
  (generateValidCombinations groups k ≠ [] ↔
   0 ≤ k ≤ Z.of_nat (length (nonempty_groups groups)))
  ∧ (1 ≤ k →
     generateValidCombinations groups k = [] ↔
     Z.of_nat (length (nonempty_groups groups)) < k).
Proof.
  intros Hwf.
  pose proof (generateValidCombinations_nil_iff groups k Hwf) as Hiff.
  split; [done|]. intros Hk.
  destruct (decide (generateValidCombinations groups k = [])) as [Hnil|Hcons].
  - split; [|done]. intros _.
    destruct (decide (Z.of_nat (length (nonempty_groups groups)) < k));
      [done|].
    destruct (proj2 Hiff ltac:(lia)). done.
  - split; [done|]. intros Hlt. apply Hiff in Hcons. lia.
Qed.

Lemma generateValidCombinations_nonempty_iff_witness :
  generateValidCombinations (expandItems [1; 0; 2]) 2 ≠ []
  ∧ generateValidCombinations (expandItems [1; 0; 2]) 3 = [].
Proof.
  assert (map_wf (expandItems [1; 0; 2])) as Hwf by compute_done.
  split.
  - apply (proj1 (generateValidCombinations_nonempty_iff
                    (expandItems [1; 0; 2]) 2 Hwf)). by compute.
  - apply (proj2 (generateValidCombinations_nonempty_iff
                    (expandItems [1; 0; 2]) 3 Hwf) ltac:(lia)). by compute.
Defined.

(** X8: [cartesian] returns no tuple exactly when one of the sequences is
    empty; and on a concatenation it returns every tuple of the first part
    followed by every tuple of the second part, the second part varying
    fastest. *)
Theorem cartesian_empty_and_app
    (itemGroups moreGroups : list (list str)) :
  (cartesian itemGroups = [] ↔ [] ∈ itemGroups)
  ∧ cartesian (itemGroups ++ moreGroups)
    = cartesian itemGroups ≫= λ t1, (t1 ++.) <$> cartesian moreGroups.
Proof.
  split; [apply cartesian_nil_iff|].
  rewrite !cartesian_tuples. apply tuples_app.
Qed.

(** X9: at the lengths the entry point rejects, the generator still
    answers: for length 0 [choose] returns the empty selection alone and
    [generateValidCombinations] one empty combination, whatever the groups;
    for a negative length both return nothing. *)
Theorem generator_below_one
    (items : list str) (groups : JsMap (list str)) (k : Z) :
  choose items 0 = [[]]
  ∧ generateValidCombinations groups 0 = [[]]
  ∧ (k < 0 → choose items k = [] ∧ generateValidCombinations groups k = []).
Proof.
  split; [|split].
  - by rewrite choose_subsequences, subsequences_of_length_0.
  - rewrite generateValidCombinations_subsequences by done.
    by rewrite subsequences_of_length_0.
  - intros Hk. split; [by apply choose_negative|].
    by apply generateValidCombinations_negative.
Qed.

(** X10: [expandItems] builds min(n, 65536) groups from n sizes, under
    distinct labels of one code unit each: beyond 65536 sizes the labels
    come round again and add no group. *)
Theorem expandItems_groups (items : list Z) :
  map_size (expandItems items) = Z.min (Z.of_nat (length items)) 65536
  ∧ NoDup (map_keys (expandItems items))
  ∧ Forall (λ label, length label = 1%nat) (map_keys (expandItems items)).
Proof.
  split; [apply expandItems_size|]. split; [apply expandItems_wf|].
  pose proof (foldl_expandItems_step_keys items [] 65 ltac:(constructor)) as Hk.
  eapply Forall_impl; [exact Hk|]. by intros label (n & _ & ->).
Qed.

(** X11: up to 65536 sizes, the i-th entry of the map is the group of the
    i-th size whatever its sign: a size <= 0 leaves a group with no item,
    which stays in the map under its label. *)
Theorem expandItems_entry (items : list Z) (i : nat) (count : Z) :
  Z.of_nat (length items) ≤ 65536 →
  items !! i = Some count →
  expandItems items !! i
  = Some (String_fromCharCode (65 + Z.of_nat i),
          (λ j, String_fromCharCode (65 + Z.of_nat i) ++ Number_toString j)
            <$> seqZ 1 count)
  ∧ (count ≤ 0 →
     map_get (String_fromCharCode (65 + Z.of_nat i)) (expandItems items)
     = Some []).
Proof.
  intros Hlen Hi.
  assert (expandItems items !! i = Some (group_at (65 + Z.of_nat i) count))
    as Hentry by (by rewrite expandItems_imap, list_lookup_imap, Hi).
  split; [done|]. intros Hcount.
  rewrite (map_get_lookup _ i _ _ (expandItems_wf items) Hentry).
  f_equal. apply nil_length_inv. rewrite length_fmap, length_seqZ. lia.
Qed.

Lemma expandItems_entry_witness :
  map_get (lit "B") (expandItems [1; 0; 2]) = Some [].
Proof.
  exact (proj2 (expandItems_entry [1; 0; 2] 1 0 ltac:(simpl; lia) eq_refl)
           ltac:(lia)).
Defined.

(** ** Distinct combinations *)

Section Distinct.
Implicit Types (groups : JsMap (list str)) (k : Z) (g item : list N).

Lemma map_get_elem_of {V} (m : JsMap V) g (v : V) :
  map_get g m = Some v → (g, v) ∈ m.
Proof.
  induction m as [|[g' v'] m IH]; simpl; [done|].
  destruct (decide (g = g')) as [->|].
  - intros [= ->]. left.
  - intros Hget. right. auto.
Qed.

Lemma Number_toString_inj (j1 j2 : Z) :
  0 ≤ j1 → 0 ≤ j2 → Number_toString j1 = Number_toString j2 → j1 = j2.
Proof.
  intros H1 H2 Heq. apply (f_equal parseInt10) in Heq.
  rewrite !parseInt10_Number_toString in Heq by done. by injection Heq.
Qed.

Lemma group_at_NoDup c count : NoDup (group_at c count).2.
Proof.
  simpl. apply NoDup_fmap_2_strong; [|apply NoDup_seqZ].
  intros j1 j2 Hj1%elem_of_seqZ Hj2%elem_of_seqZ [= Heq].
  apply Number_toString_inj; [lia|lia|done].
Qed.

Lemma get_bang_group_entry groups g :
  Forall group_entry groups →
  NoDup (get_bang groups g)
  ∧ ∀ item, item ∈ get_bang groups g → take 1 item = g.
Proof.
  intros Hentries. unfold get_bang.
  destruct (map_get g groups) as [members|] eqn:Hget; simpl.
  - apply map_get_elem_of in Hget. rewrite Forall_forall in Hentries.
    destruct (Hentries _ Hget) as (c & count & [= -> ->]). split.
    + apply (group_at_NoDup c count).
    + intros item (j & -> & _)%list_elem_of_fmap. done.
  - split; [constructor|]. by intros item ?%elem_of_nil.
Qed.

Lemma generateValidCombinations_NoDup groups k :
  map_wf groups → Forall group_entry groups →
  NoDup (generateValidCombinations groups k).
Proof.
  intros Hwf Hentries. destruct (decide (0 ≤ k)) as [Hk|Hk].
  2:{ rewrite generateValidCombinations_negative by lia. constructor. }
  rewrite generateValidCombinations_subsequences by done.
  assert (∀ S t, t ∈ cartesian (get_bang groups <$> S) →
                 S = take 1 <$> t) as Hgroups.
  { intros S t. rewrite elem_of_cartesian, Forall2_fmap_r.
    induction 1 as [|item g t S Hitem _ IH]; [done|].
    rewrite fmap_cons, <-IH. f_equal. symmetry.
    by apply (get_bang_group_entry groups g). }
  apply NoDup_bind.
  - intros S1 S2 t _ _ H1%Hgroups H2%Hgroups. congruence.
  - intros S _. apply cartesian_NoDup, Forall_fmap, Forall_forall.
    intros g _. by apply get_bang_group_entry.
  - by apply subsequences_of_length_NoDup.
Qed.
End Distinct.

(** X12: the entry point never returns a combination twice: the list it
    answers with has no repetition, whatever the sizes and the length. *)
Theorem generateAndStore_no_repetition
    (drv : Driver) (input : GenerateInput) (tr tr' : list Call)
    (result : GenerateResult) :
  generateAndStore drv input tr = (Returned result, tr') →
  NoDup (result_combination result).
Proof.
  destruct result as [id combos]. intros Hrun.
  apply generateAndStore_returns in Hrun as (items & _ & ->).
  destruct (decide _); [constructor|].
  apply generateValidCombinations_NoDup;
    [apply expandItems_wf|apply expandItems_entries].
Qed.

Lemma generateAndStore_no_repetition_witness :
  NoDup (generateValidCombinations (expandItems [1; 2; 1]) 2).
Proof.
  exact (generateAndStore_no_repetition healthy
           {| input_items := Some [1; 2; 1]; input_length := 2 |} [] _
           {| result_id := Some 1;
              result_combination :=
                generateValidCombinations (expandItems [1; 2; 1]) 2 |}
           eq_refl).
Defined.

(** ** Colliding keys *)

Section Collisions.
Implicit Types (s t a b : list N) (c : list (list N)).

Lemma first_bar_unique s : ∀ t a b,
  bar_free s → bar_free t →
  s ++ 124%N :: a = t ++ 124%N :: b → s = t ∧ a = b.
Proof.
  unfold bar_free. induction s as [|x s IH]; intros [|y t] a b Hs Ht; simpl.
  - by intros [= ->].
  - intros [= <- _]. destruct Ht. left.
  - intros [= -> _]. destruct Hs. left.
  - intros [= -> Heq]. rewrite not_elem_of_cons in Hs, Ht.
    destruct (IH t a b) as [-> ->]; [tauto|tauto|done|done].
Qed.

Lemma join_cons_cons s t c :
  join (lit "|") (s :: t :: c) = s ++ 124%N :: join (lit "|") (t :: c).
Proof. done. Qed.

Lemma join_bar_inj c1 : ∀ c2,
  Forall bar_free c1 → Forall bar_free c2 →
  c1 ≠ [] → c2 ≠ [] →
  join (lit "|") c1 = join (lit "|") c2 → c1 = c2.
Proof.
  induction c1 as [|s c1 IH]; intros [|t c2] H1 H2 Hne1 Hne2; try done.
  apply Forall_cons in H1 as [Hs H1]. apply Forall_cons in H2 as [Ht H2].
  destruct c1 as [|s' c1], c2 as [|t' c2].
  - simpl. by intros ->.
  - rewrite join_cons_cons. cbn [join]. intros ->.
    destruct Hs. apply elem_of_app. right. left.
  - rewrite join_cons_cons. cbn [join]. intros <-.
    destruct Ht. apply elem_of_app. right. left.
  - rewrite !join_cons_cons. intros [-> Heq]%first_bar_unique; [|done|done].
    f_equal. by apply IH.
Qed.
End Collisions.

(** X13: for combinations that are not empty and whose item labels hold no
    "|", two combinations get the same key exactly when they are
    permutations of each other; so only reorderings of the same items
    collide on the unique key of the store. *)
Theorem combination_key_collides_iff (c1 c2 : Combo) :
  c1 ≠ [] → c2 ≠ [] →
  Forall bar_free c1 → Forall bar_free c2 →
  combination_key c1 = combination_key c2 ↔ c1 ≡ₚ c2.
Proof.
  intros Hne1 Hne2 H1 H2. split.
  - unfold combination_key. intros Hkey.
    destruct (Array_sort_sorted c1) as [_ Hp1].
    destruct (Array_sort_sorted c2) as [_ Hp2].
    apply join_bar_inj in Hkey.
    + by rewrite <-Hp1, Hkey.
    + by rewrite Hp1.
    + by rewrite Hp2.
    + intros Hnil. rewrite Hnil in Hp1. by apply Permutation_nil_l in Hp1.
    + intros Hnil. rewrite Hnil in Hp2. by apply Permutation_nil_l in Hp2.
  - intros Hperm. unfold combination_key.
    by rewrite (Array_sort_permutation c1 c2).
Qed.

Lemma combination_key_collides_iff_witness :
  combination_key [lit "A1"; lit "B1"] = combination_key [lit "B1"; lit "A1"]
  ↔ [lit "A1"; lit "B1"] ≡ₚ [lit "B1"; lit "A1"].
Proof.
  apply combination_key_collides_iff; [done|done|..];
    repeat constructor; unfold bar_free; compute_done.
Defined.

(** Labels that hold "|" can collide without being reorderings. *)
Example combination_key_bar :
  combination_key [lit "A|B"] = combination_key [lit "A"; lit "B"].
Proof. reflexivity. Qed.

(** ** Requests recorded without a combination *)

Lemma chunk_queries_nil (responseId : Z) : chunk_queries responseId [] = [].
Proof.
  unfold chunk_queries.
  pose proof (chunk_count_le 0 0 ltac:(lia)) as Hcount. simpl length.
  by replace (chunk_count 0) with 0%nat by lia.
Qed.

(** X14: when the length exceeds the number of groups that have an item but
    not the number of groups, and the driver does not fail, the entry point
    still records the request: it opens the transaction, inserts the
    request and the items if any, binds no combination, commits, releases,
    and answers with the new identifier and no combination. *)
Theorem generateAndStore_records_empty
    (drv : Driver) (items : list Z) (len : Z) (tr : list Call) :
  (∀ t, failure drv t = None) →
  items ≠ [] →
  1 ≤ len →
  Z.of_nat (length (nonempty_groups (expandItems items))) < len
    ≤ map_size (expandItems items) →
  let recorded :=
    ((tr ++ [getConnection]) ++ [beginTransaction])
      ++ [query_insert_response items len] in
  generateAndStore drv
    {| input_items := Some items; input_length := len |} tr
  = (Returned {| result_id := Some (insertId drv recorded);
                 result_combination := [] |},
     ((recorded
         ++ (if decide (all_items (expandItems items) = []) then []
             else [query_insert_items (item_rows (expandItems items))]))
        ++ [commit]) ++ [release]).
Proof.
  intros Hok Hitems Hlen Hgroups. destruct items as [|x items]; [done|].
  cbn zeta. unfold generateAndStore. cbn [input_items input_length].
  rewrite decide_False by lia. rewrite decide_False by lia.
  assert (generateValidCombinations (expandItems (x :: items)) len = [])
    as ->.
  { destruct (decide (generateValidCombinations
                        (expandItems (x :: items)) len = [])) as [|Hne];
      [done|].
    apply generateValidCombinations_nil_iff in Hne; [lia|].
    apply expandItems_wf. }
  unfold bind at 1. rewrite withTransaction_run, Hok. cbn zeta.
  rewrite Hok, transaction_run_ok, Hok by done.
  by rewrite chunk_queries_nil, app_nil_r.
Qed.

Lemma generateAndStore_records_empty_witness :
  generateAndStore healthy
    {| input_items := Some [1; 0]; input_length := 2 |} []
  = (Returned {| result_id := Some 1; result_combination := [] |},
     [getConnection; beginTransaction; query_insert_response [1; 0] 2;
      query_insert_items [(lit "A1", lit "A", Some 1)]; commit; release]).
Proof.
  exact (generateAndStore_records_empty healthy [1; 0] 2 []
           (λ _, eq_refl) ltac:(done) ltac:(lia) ltac:(by compute)).
Defined.

(** ** The order of the selections *)

(** X15: [choose] lists the selections that take the first item before
    those that leave it out: for a length k >= 1, the answer on x :: items
    is x put in front of each selection of k - 1 among items, followed by
    the selections of k among items; and nothing can be chosen from no
    item. Repeated items are selected by position. *)
Theorem choose_cons (x : str) (items : list str) (k : Z) :
  1 ≤ k →
  choose (x :: items) k
  = ((x ::.) <$> choose items (k - 1)) ++ choose items k
  ∧ choose [] k = [].
Proof.
  intros Hk. rewrite !choose_subsequences by lia.
  replace (Z.to_nat k) with (S (Z.to_nat (k - 1))) by lia. done.
Qed.

Lemma choose_cons_witness :
  choose [lit "A"; lit "A"; lit "B"] 2
  = ((lit "A" ::.) <$> choose [lit "A"; lit "B"] 1)
      ++ choose [lit "A"; lit "B"] 2.
Proof.
  exact (proj1 (choose_cons (lit "A") [lit "A"; lit "B"] 2 ltac:(lia))).
Defined.

(** ** The key, the store and the answer *)

Section KeyAndAnswer.
Implicit Types (c sorted : list (list N)) (tr calls : list Call).

Lemma join_joined_with (sep : list N) (l : list (list N)) :
  join sep l = joined_with sep l.
Proof.
  induction l as [|s l IH]; [done|]. destruct l as [|t l].
  - simpl. by rewrite app_nil_r.
  - change (join sep (s :: t :: l)) with (s ++ sep ++ join sep (t :: l)).
    rewrite IH. simpl. by rewrite <-app_assoc.
Qed.

(** The key is the one ascending arrangement of the labels, joined. *)
Lemma combination_key_sorted c sorted :
  Sorted str_le sorted → sorted ≡ₚ c →
  combination_key c = joined_with (lit "|") sorted.
Proof.
  intros Hsorted Hperm. unfold combination_key. rewrite join_joined_with.
  f_equal. apply (Sorted_unique str_le); [apply Array_sort_sorted|done|].
  destruct (Array_sort_sorted c) as [_ ->]. done.
Qed.

Lemma combination_rows_app calls1 calls2 :
  combination_rows (calls1 ++ calls2)
  = combination_rows calls1 ++ combination_rows calls2.
Proof. unfold combination_rows. apply bind_app. Qed.

Lemma combination_rows_chunk_queries responseId (combos : list (list (list N))) :
  combination_rows (chunk_queries responseId combos)
  = (λ c, (responseId, combination_key c, c)) <$> combos.
Proof.
  destruct (insertCombinations_rows healthy responseId combos [])
    as (calls & Hrun & <-); [done|].
  rewrite insertCombinations_perform_all, perform_all_ok in Hrun by done.
  by injection Hrun as <-.
Qed.

(** With a driver that does not fail, the entry point answers with the
    list the orchestrator generated and has bound one row per element of
    that list. *)
Lemma generateAndStore_rows (drv : Driver) (items : list Z) (len : Z) tr :
  (∀ t, failure drv t = None) →
  items ≠ [] →
  1 ≤ len ≤ map_size (expandItems items) →
  ∃ id calls,
    generateAndStore drv
      {| input_items := Some items; input_length := len |} tr
    = (Returned {| result_id := Some id;
                   result_combination :=
                     generateValidCombinations (expandItems items) len |},
       tr ++ calls)
    ∧ combination_rows calls
      = (λ c, (id, combination_key c, c))
          <$> generateValidCombinations (expandItems items) len.
Proof.
  intros Hok Hitems Hlen. destruct items as [|x items]; [done|].
  unfold generateAndStore. cbn [input_items input_length].
  rewrite decide_False by lia. rewrite decide_False by lia.
  unfold bind at 1. rewrite withTransaction_run, Hok. cbn zeta.
  rewrite Hok, transaction_run_ok, Hok by done.
  set (groups := expandItems (x :: items)).
  set (id := insertId drv _).
  set (itemsQuery := if decide (all_items groups = []) then []
                     else [query_insert_items (item_rows groups)]).
  exists id,
    ([getConnection; beginTransaction; query_insert_response (x :: items) len]
       ++ itemsQuery
       ++ chunk_queries id (generateValidCombinations groups len)
       ++ [commit; release]).
  split.
  - unfold ret. f_equal. rewrite <-!app_assoc. done.
  - rewrite !combination_rows_app, combination_rows_chunk_queries.
    unfold itemsQuery. destruct (decide _); simpl; by rewrite app_nil_r.
Qed.
End KeyAndAnswer.

(** C8: the key of a combination is its item labels in ascending order,
    joined with "|": whatever arrangement of the labels is ascending gives
    the key. So two combinations that are permutations of each other get
    the same key; when both are handed to the store, each is bound in a row
    of its own, under that one key and with its own order of labels; and
    the list the entry point answers with is the list the orchestrator
    generated, every element of it bound in a row and none dropped. *)
Theorem combination_key_permutation (c1 c2 : Combo) :
  c1 ≡ₚ c2 →
  (∀ sorted, Sorted str_le sorted → sorted ≡ₚ c1 →
     combination_key c1 = joined_with (lit "|") sorted)
  ∧ combination_key c1 = combination_key c2
  ∧ (∀ (drv : Driver) responseId (combos : list Combo) tr,
       (∀ t, failure drv t = None) →
       ∃ calls,
         insertCombinations drv responseId combos tr
         = (Returned (), tr ++ calls)
         ∧ combination_rows calls
           = (λ c, (responseId, combination_key c, c)) <$> combos
         ∧ (c1 ∈ combos → c2 ∈ combos →
            (responseId, combination_key c1, c1) ∈ combination_rows calls
            ∧ (responseId, combination_key c1, c2) ∈ combination_rows calls))
  ∧ (∀ (drv : Driver) (items : list Z) (len : Z) tr,
       (∀ t, failure drv t = None) →
       items ≠ [] →
       1 ≤ len ≤ map_size (expandItems items) →
       ∃ id calls,
         generateAndStore drv
           {| input_items := Some items; input_length := len |} tr
         = (Returned
              {| result_id := Some id;
                 result_combination :=
                   generateValidCombinations (expandItems items) len |},
            tr ++ calls)
         ∧ combination_rows calls
           = (λ c, (id, combination_key c, c))
               <$> generateValidCombinations (expandItems items) len)
  ∧ (∀ (drv : Driver) input tr result combos tr',
       generateAndStore drv input tr
       = (Returned {| result_id := Some result;
                      result_combination := combos |}, tr') →
       ∃ items,
         input_items input = Some items
         ∧ combos = generateValidCombinations (expandItems items)
                      (input_length input)).
Proof.
  intros Hperm.
  assert (combination_key c1 = combination_key c2) as Hkey.
  { unfold combination_key. by rewrite (Array_sort_permutation c1 c2). }
  split; [|split; [|split; [|split]]].
  - intros sorted Hsorted Hsorted1. by apply combination_key_sorted.
  - done.
  - intros drv responseId combos tr Hok.
    destruct (insertCombinations_rows drv responseId combos tr Hok)
      as (calls & Hrun & Hrows).
    exists calls. split; [done|]. split; [done|].
    intros H1 H2. rewrite Hrows. split.
    + apply list_elem_of_fmap. by exists c1.
    + apply list_elem_of_fmap. exists c2. by rewrite Hkey.
  - intros drv items len tr. apply generateAndStore_rows.
  - intros drv input tr result combos tr' Hrun.
    pose proof Hrun as (items & Hitems & Hcombos)%generateAndStore_returns.
    exists items. split; [done|]. rewrite Hcombos.
    destruct (decide _) as [Hgt|]; [|done].
    destruct input as [its len]. cbn [input_items input_length] in *.
    subst its. unfold generateAndStore in Hrun.
    cbn [input_items input_length] in Hrun.
    destruct (decide (len < 1)); [done|].
    destruct items; [done|]. by rewrite decide_True in Hrun.
Qed.

Lemma combination_key_permutation_witness :
  combination_key [lit "B1"; lit "A1"] = lit "A1|B1"
  ∧ combination_key [lit "A1"; lit "B1"] = lit "A1|B1"
  ∧ ∃ calls,
      insertCombinations healthy 7
        [[lit "B1"; lit "A1"]; [lit "A1"; lit "B1"]] []
      = (Returned (), [] ++ calls)
      ∧ (7, lit "A1|B1", [lit "B1"; lit "A1"]) ∈ combination_rows calls
      ∧ (7, lit "A1|B1", [lit "A1"; lit "B1"]) ∈ combination_rows calls.
Proof.
  assert ([lit "B1"; lit "A1"] ≡ₚ [lit "A1"; lit "B1"]) as Hperm
    by apply Permutation_swap.
  destruct (combination_key_permutation
              [lit "B1"; lit "A1"] [lit "A1"; lit "B1"] Hperm)
    as (Hpin & Hsame & Hrows & _).
  assert (combination_key [lit "B1"; lit "A1"] = lit "A1|B1") as Hkey.
  { apply (Hpin [lit "A1"; lit "B1"]); [|by symmetry].
    repeat constructor. }
  split; [exact Hkey|]. split; [by rewrite <-Hsame|].
  destruct (Hrows healthy 7 [[lit "B1"; lit "A1"]; [lit "A1"; lit "B1"]] []
              (λ _, eq_refl)) as (calls & Hrun & _ & Hboth).
  exists calls. split; [exact Hrun|]. rewrite <-Hkey.
  apply Hboth; [left|right; left].
Defined.
